(** * twitter.common.config.properties: a reader and writer for
      java.util.Properties text

    A shallow embedding of [Properties.load], [Properties._parse] (with its
    inner [coalesce_lines], [normalize] and [parse_line]) and
    [Properties.dump] (with its inner [escape] and [write]), followed by the
    properties of the codec.

    Text is modelled as text strings ([Compatibility.string], Python 3
    [str]) over the code points below 256: a string is a list of such
    characters, [isspace] is the class used by [str.strip] and by the
    regular expression class [\s] (tab, line feed, vertical tab, form feed,
    carriage return, the four separators 28 to 31, space, next line 133 and
    no-break space 160), and [str.splitlines] breaks at line feed, carriage
    return, the pair carriage return + line feed, vertical tab, form feed,
    the separators 28 to 30 and next line. *)

From Stdlib Require Import Ascii String Bool Arith Lia List.
Import ListNotations.

(** ** Strings *)

Definition str := list ascii.

Definition lit (x : string) : str := list_ascii_of_string x.

Definition backslash : ascii := "\"%char.
Definition equals : ascii := "="%char.
Definition colon : ascii := ":"%char.
Definition hash : ascii := "#"%char.
Definition bang : ascii := "!"%char.
Definition space : ascii := " "%char.
Definition TAB : ascii := "009"%char.
Definition LF : ascii := "010"%char.
Definition VT : ascii := "011"%char.
Definition FF : ascii := "012"%char.
Definition CR : ascii := "013"%char.
Definition FS : ascii := "028"%char.
Definition GS : ascii := "029"%char.
Definition RS : ascii := "030"%char.
Definition US : ascii := "031"%char.
Definition NEL : ascii := "133"%char.
Definition NBSP : ascii := "160"%char.

Definition str_eq_dec : forall a b : str, {a = b} + {a <> b} :=
  list_eq_dec ascii_dec.

(** [c.isspace()] on a character of a text string, which is also the
    class [\s] of a text pattern. *)
Definition isspace (c : ascii) : bool :=
  Ascii.eqb c space || Ascii.eqb c TAB || Ascii.eqb c LF ||
  Ascii.eqb c VT || Ascii.eqb c FF || Ascii.eqb c CR ||
  Ascii.eqb c FS || Ascii.eqb c GS || Ascii.eqb c RS || Ascii.eqb c US ||
  Ascii.eqb c NEL || Ascii.eqb c NBSP.

(** [s.lstrip()], [s.rstrip()] and [s.strip()] without argument. *)
Fixpoint lstrip (s : str) : str :=
  match s with
  | [] => []
  | c :: t => if isspace c then lstrip t else s
  end.

Definition rstrip (s : str) : str := rev (lstrip (rev s)).

Definition strip (s : str) : str := rstrip (lstrip s).

(** [s.startswith(c)] and [s.endswith(c)] for a one-character argument. *)
Definition startswith (s : str) (c : ascii) : bool :=
  match s with
  | [] => false
  | a :: _ => Ascii.eqb a c
  end.

Definition endswith (s : str) (c : ascii) : bool := startswith (rev s) c.

(** [s.find(c)] for a one-character argument; Python's -1 is [None]. *)
Fixpoint find (s : str) (c : ascii) : option nat :=
  match s with
  | [] => None
  | a :: t => if Ascii.eqb a c then Some 0
              else match find t c with
                   | Some i => Some (S i)
                   | None => None
                   end
  end.

(** Truth value of a string: [if s:]. *)
Definition truthy (s : str) : bool :=
  match s with
  | [] => false
  | _ :: _ => true
  end.

(** The characters [splitlines] breaks a text string at. *)
Definition is_linebreak (c : ascii) : bool :=
  Ascii.eqb c LF || Ascii.eqb c CR || Ascii.eqb c VT || Ascii.eqb c FF ||
  Ascii.eqb c FS || Ascii.eqb c GS || Ascii.eqb c RS || Ascii.eqb c NEL.

(** [s.splitlines()]: [cur] is the line being read.  A line break ends the
    current line, also when it is empty; a carriage return followed by a
    line feed is one break; text after the last break is a line only when it
    is not empty. *)
Fixpoint splitlines_from (cur : str) (s : str) : list str :=
  match s with
  | [] => match cur with
          | [] => []
          | _ :: _ => [cur]
          end
  | c :: t =>
      if Ascii.eqb c CR then
        match t with
        | c' :: t' => if Ascii.eqb c' LF then cur :: splitlines_from [] t'
                      else cur :: splitlines_from [] t
        | [] => cur :: splitlines_from [] t
        end
      else if is_linebreak c then cur :: splitlines_from [] t
      else splitlines_from (cur ++ [c]) t
  end.

Definition splitlines (s : str) : list str := splitlines_from [] s.

(** ** The part of [re] the module uses *)

Module Re.

(** A compiled pattern, tried at one position of the subject.  It is given
    the character just before the position ([None] at the start of the
    subject), which is what a one-character lookbehind inspects, and the
    subject from the position on.  A match returns the number of characters
    it consumes after the first one, and the text of group 1. *)
Definition pattern := option ascii -> str -> option (nat * str).

(** [pattern.search(s)]: the leftmost match, as [(start, end)]. *)
Fixpoint search_from (p : pattern) (prev : option ascii) (pos : nat)
         (s : str) : option (nat * nat) :=
  match p prev s with
  | Some (n, _) => Some (pos, pos + S n)
  | None =>
      match s with
      | [] => None
      | c :: t => search_from p (Some c) (S pos) t
      end
  end.

Definition search (p : pattern) (s : str) : option (nat * nat) :=
  search_from p None 0 s.

(** [re.sub(pattern, repl, s)]: the subject is scanned from the left, each
    match is replaced by [repl] applied to its group 1 and the scan resumes
    after the match, so matches do not overlap.  [skip] counts the
    characters of the current match still to be passed over. *)
Fixpoint sub_from (p : pattern) (repl : str -> str) (prev : option ascii)
         (skip : nat) (s : str) : str :=
  match s with
  | [] => []
  | c :: t =>
      match skip with
      | S k => sub_from p repl (Some c) k t
      | O =>
          match p prev s with
          | Some (n, g) => repl g ++ sub_from p repl (Some c) n t
          | None => c :: sub_from p repl (Some c) 0 t
          end
      end
  end.

Definition sub (p : pattern) (repl : str -> str) (s : str) : str :=
  sub_from p repl None 0 s.

End Re.

(** ** Properties._parse *)

(** The class [[=:\s]] shared by the patterns of [normalize] and [escape]. *)
Definition sep_or_space (c : ascii) : bool :=
  Ascii.eqb c equals || Ascii.eqb c colon || isspace c.

Definition is_backslash (prev : option ascii) : bool :=
  match prev with
  | Some c => Ascii.eqb c backslash
  | None => false
  end.

(** [_EXPLICIT_KV_SEP = re.compile(r'(?<!\\)[=:]')]. *)
Definition _EXPLICIT_KV_SEP : Re.pattern :=
  fun prev s =>
    match s with
    | c :: _ =>
        if (Ascii.eqb c equals || Ascii.eqb c colon) && negb (is_backslash prev)
        then Some (0, [])
        else None
    | [] => None
    end.

(** The generator [coalesce_lines], run to exhaustion.  [buffer] is its local
    variable; it is reset after every [yield], and when [next(line_iter)]
    raises [StopIteration] the generator ends and whatever [buffer] holds is
    dropped. *)
Fixpoint coalesce_from (buffer : str) (lines : list str) : list str :=
  match lines with
  | [] => []
  | line :: rest =>
      if endswith (strip line) backslash then
        coalesce_from (buffer ++ removelast (strip line)) rest
      else
        (if truthy buffer then buffer ++ rstrip line else strip line)
          :: coalesce_from [] rest
  end.

Definition coalesce_lines (lines : list str) : list str :=
  coalesce_from [] lines.

(** [normalize]: [re.sub(r'\\([:=\s])', r'\1', atom.strip())]. *)
Definition unescape_pattern : Re.pattern :=
  fun _ s =>
    match s with
    | b :: c :: _ =>
        if Ascii.eqb b backslash && sep_or_space c then Some (1, [c]) else None
    | _ => None
    end.

Definition normalize (atom : str) : str :=
  Re.sub unescape_pattern (fun g => g) (strip atom).

(** [parse_line]; Python's implicit [None] result is [None]. *)
Definition parse_line (line : str) : option (str * str) :=
  if truthy line && negb (startswith line hash || startswith line bang) then
    match Re.search _EXPLICIT_KV_SEP line with
    | Some (m_start, m_end) =>
        Some (normalize (firstn m_start line), normalize (skipn m_end line))
    | None =>
        match find line space with
        | None => Some (normalize line, [])
        | Some space_sep =>
            Some (normalize (firstn space_sep line),
                  normalize (skipn space_sep line))
        end
    end
  else None.

Module OrderedDict.

(** Modelled from the spec: [twitter.common.collections.OrderedDict] is not
    among the sources.  The data model describes it as an ordered mapping
    from string keys to string values with unique keys, iterated in
    insertion order. *)
Definition t := list (str * str).

Definition empty : t := [].

(** Modelled from the spec: [d[key] = value] of the missing [OrderedDict].
    Assigning to a key the map holds updates its value in place and does
    not move it; a new key goes to the end. *)
Fixpoint setitem (d : t) (key value : str) : t :=
  match d with
  | [] => [(key, value)]
  | (k, v) :: rest =>
      if str_eq_dec k key then (k, value) :: rest
      else (k, v) :: setitem rest key value
  end.

(** Modelled from the spec: [d.get(key)] of the missing [OrderedDict]. *)
Fixpoint get (d : t) (key : str) : option str :=
  match d with
  | [] => None
  | (k, v) :: rest => if str_eq_dec k key then Some v else get rest key
  end.

(** Modelled from the spec: [d.keys()] and [d.items()] of the missing
    [OrderedDict], in iteration order. *)
Definition keys (d : t) : list str := map fst d.

Definition items (d : t) : list (str * str) := d.

End OrderedDict.

Definition PropertyMap := OrderedDict.t.

(** One turn of the loop [for line in coalesce_lines(): ...]. *)
Definition parse_step (props : PropertyMap) (line : str) : PropertyMap :=
  match parse_line line with
  | Some (key, value) => OrderedDict.setitem props key value
  | None => props
  end.

Definition _parse (lines : list str) : PropertyMap :=
  fold_left parse_step (coalesce_lines lines) OrderedDict.empty.

(** ** Python values at the boundary of [load] and [dump] *)

(** The exceptions that can leave [load] and [dump]: the [TypeError] the
    module raises itself, and whatever a stream or [open] raises, which is
    passed on unchanged: an error of the operating system, or the
    [ValueError] with which [open] rejects a mode string. *)
Inductive exn :=
| TypeError (message : str)
| EnvironmentError (errno : nat)
| ValueError.

(** How a call of [open] fails. *)
Inductive open_error :=
| InvalidMode
| OSFailure (errno : nat).

Definition open_exception (e : open_error) : exn :=
  match e with
  | InvalidMode => ValueError
  | OSFailure errno => EnvironmentError errno
  end.

Inductive result (A : Type) :=
| Ok (a : A)
| Raise (e : exn).

Arguments Ok {A} a.
Arguments Raise {A} e.

(** An attribute as [hasattr(obj, name) and callable(obj.name)] sees it. *)
Inductive attribute (M : Type) :=
| Missing
| NotCallable
| Method (m : M).

Arguments Missing {M}.
Arguments NotCallable {M}.
Arguments Method {M} m.

(** [read()] returns the whole text or raises. *)
Definition read_method := (nat + str)%type.

(** [write(text)] on a stream that has taken the chunks [accepted] so far:
    [None] when the chunk is taken, [Some errno] when the call raises. *)
Definition write_method := list str -> str -> option nat.

(** What [load] and [dump] ask of their argument.  [py_string] is modelled
    from the spec, [Compatibility.string] (twitter.common.lang) not being
    among the sources: it holds the text when the argument is a string. *)
Record PyObject := {
  py_format : str;                     (* '%s' % obj *)
  py_string : option str;              (* isinstance(obj, Compatibility.string) *)
  py_read : attribute read_method;     (* obj.read *)
  py_write : attribute write_method    (* obj.write *)
}.

Definition load_message : str :=
  lit "Can only process data from a string or a readable object, given: ".

Definition dump_message : str :=
  lit "Can only dump data to a path or a writable object, given: ".

(** ** Properties.load *)

Definition load (data : PyObject) : result PropertyMap :=
  match py_read data with
  | Method read =>
      match read with
      | inl errno => Raise (EnvironmentError errno)
      | inr contents => Ok (_parse (splitlines contents))
      end
  | _ =>
      match py_string data with
      | Some contents => Ok (_parse (splitlines contents))
      | None => Raise (TypeError (load_message ++ py_format data))
      end
  end.

(** ** Properties.dump *)

(** [escape]: [re.sub(r'([=:\s])', r'\\\1', token)]. *)
Definition escape_pattern : Re.pattern :=
  fun _ s =>
    match s with
    | c :: _ => if sep_or_space c then Some (0, [c]) else None
    | [] => None
    end.

Definition escape (token : str) : str :=
  Re.sub escape_pattern (fun g => backslash :: g) token.

(** ['%s=%s\n' % (escape(str(k)), escape(str(v)))]; keys and values are
    strings already. *)
Definition entry_line (kv : str * str) : str :=
  escape (fst kv) ++ equals :: escape (snd kv) ++ [LF].

(** What [dump] does to the outside, in order: the calls it makes. *)
Inductive event :=
| CallOpen (path mode : str)
| CallWrite (text : str)
| CallClose.

(** The inner [write(out)]: one call of [out.write] per item; a call that
    raises ends the loop. *)
Fixpoint write (items : list (str * str)) (out : write_method)
         (accepted : list str) : list event * option exn :=
  match items with
  | [] => ([], None)
  | kv :: rest =>
      match out accepted (entry_line kv) with
      | Some errno => ([CallWrite (entry_line kv)], Some (EnvironmentError errno))
      | None =>
          let (evs, r) := write rest out (accepted ++ [entry_line kv]) in
          (CallWrite (entry_line kv) :: evs, r)
      end
  end.

(** [dump]; [open] stands for the builtin: it raises or returns a file
    object.  The [with] statement closes the file when its body is left,
    normally or by an exception. *)
Definition dump (open : str -> str -> open_error + write_method)
           (props : PropertyMap) (output : PyObject)
  : list event * option exn :=
  match py_write output with
  | Method out => write (OrderedDict.items props) out []
  | _ =>
      match py_string output with
      | Some path =>
          match open path (lit "w+a") with
          | inl failure =>
              ([CallOpen path (lit "w+a")], Some (open_exception failure))
          | inr out =>
              let (evs, r) := write (OrderedDict.items props) out [] in
              (CallOpen path (lit "w+a") :: evs ++ [CallClose], r)
          end
      | None => ([], Some (TypeError (dump_message ++ py_format output)))
      end
  end.

(** The text a trace of calls has written. *)
Fixpoint written (evs : list event) : str :=
  match evs with
  | [] => []
  | CallWrite text :: rest => text ++ written rest
  | _ :: rest => written rest
  end.

(** A string as a Python object, and an in-memory text stream that takes
    every chunk. *)
Definition PyStr (s : str) : PyObject :=
  {| py_format := s; py_string := Some s;
     py_read := Missing; py_write := Missing |}.

Definition StringIO (contents : str) : PyObject :=
  {| py_format := lit "<StringIO>"; py_string := None;
     py_read := Method (inr contents);
     py_write := Method (fun _ _ => None) |}.

Definition no_open : str -> str -> open_error + write_method :=
  fun _ _ => inl (OSFailure 2).

(** The mode strings the builtin [open] takes: only the characters
    [r w x a b t +], none of them twice, not both [t] and [b], and exactly
    one of [r], [w], [x] and [a]; any other mode string is rejected with a
    [ValueError] before the file system is touched. *)
Fixpoint distinct (s : str) : bool :=
  match s with
  | [] => true
  | c :: t => negb (existsb (Ascii.eqb c) t) && distinct t
  end.

Definition has (mode : str) (c : ascii) : bool := existsb (Ascii.eqb c) mode.

Definition valid_mode (mode : str) : bool :=
  forallb (has (lit "rwxabt+")) mode && distinct mode &&
  negb (has mode "t"%char && has mode "b"%char) &&
  (length (filter (has (lit "rwxa")) mode) =? 1).

(** A mode in which [open] appends to the file, creating it when absent. *)
Definition append_mode (mode : str) : bool :=
  valid_mode mode && has mode "a"%char.

(** The builtin [open] over a file system [fs], which says for a path and a
    valid mode whether opening fails and how the file takes writes. *)
Definition builtin_open (fs : str -> str -> nat + write_method)
           (path mode : str) : open_error + write_method :=
  if valid_mode mode then
    match fs path mode with
    | inl errno => inl (OSFailure errno)
    | inr file => inr file
    end
  else inl InvalidMode.

(** The text [dump] writes to an in-memory stream. *)
Definition dump_to_string (props : PropertyMap) : str :=
  written (fst (dump no_open props (StringIO []))).

(** [load] of a text, when nothing is raised. *)
Definition loads (text : str) : PropertyMap := _parse (splitlines text).

(** ** Vocabulary of the statements *)

(** Whether a string starts, or ends, with a white space character. *)
Definition starts_space (s : str) : bool :=
  match s with
  | [] => false
  | c :: _ => isspace c
  end.

Definition ends_space (s : str) : bool := starts_space (rev s).

(** The character a lookbehind at position [i] of [s] sees, when [prev] is
    the character before [s]. *)
Definition char_before (prev : option ascii) (s : str) (i : nat)
  : option ascii :=
  match i with
  | O => prev
  | S j => nth_error s j
  end.

Definition sep_at (prev : option ascii) (s : str) (i : nat) : Prop :=
  (nth_error s i = Some equals \/ nth_error s i = Some colon) /\
  char_before prev s i <> Some backslash.

(** Position [p] of [line] holds an unescaped separator: an [=] or a [:]
    that is not immediately preceded by a backslash. *)
Definition unescaped_separator (line : str) (p : nat) : Prop :=
  (nth_error line p = Some equals \/ nth_error line p = Some colon) /\
  (forall q, p = S q -> nth_error line q <> Some backslash).

(** A line that is neither empty nor a comment. *)
Definition is_record (line : str) : Prop :=
  line <> [] /\ startswith line hash = false /\ startswith line bang = false.

(** A physical line the coalescer treats as continued on the next one, and
    what it adds to the buffer. *)
Definition is_continuation (line : str) : bool :=
  endswith (strip line) backslash.

Definition segment (line : str) : str := removelast (strip line).


(** What escaping makes of one character. *)
Definition escaped_char (c : ascii) : str :=
  if sep_or_space c then [backslash; c] else [c].

(** The pairs the logical lines give to the map, in the order of the lines. *)
Definition pair_of (line : str) : list (str * str) :=
  match parse_line line with
  | Some kv => [kv]
  | None => []
  end.

Definition produced (logical : list str) : list (str * str) :=
  flat_map pair_of logical.

(** The keys of a sequence of pairs, each at the place where it is first
    seen; [seen] holds the keys met so far. *)
Fixpoint first_seen (seen : list str) (ks : list str) : list str :=
  match ks with
  | [] => []
  | k :: rest =>
      if in_dec str_eq_dec k seen then first_seen seen rest
      else k :: first_seen (k :: seen) rest
  end.

(** The value of the last pair with key [key]. *)
Fixpoint last_value (pairs : list (str * str)) (key : str) : option str :=
  match pairs with
  | [] => None
  | (k, v) :: rest =>
      match last_value rest key with
      | Some v' => Some v'
      | None => if str_eq_dec k key then Some v else None
      end
  end.

(** [hasattr(obj, name) and callable(obj.name)]. *)
Definition callable {M : Type} (a : attribute M) : Prop :=
  exists m, a = Method m.

(** [props[key] = value] for a pair. *)
Definition put (d : OrderedDict.t) (kv : str * str) : OrderedDict.t :=
  OrderedDict.setitem d (fst kv) (snd kv).

(** The last character of a string. *)
Definition last_char (s : str) : option ascii := hd_error (rev s).

(** A key or value that [load] reads back as [dump] wrote it: it holds no
    character [splitlines] breaks at and ends neither in white space nor in
    a backslash. *)
Definition dumpable (token : str) : bool :=
  negb (existsb is_linebreak token) && negb (ends_space token) &&
  negb (endswith token backslash).

(** The line of an entry without its line feed. *)
Definition record_line (kv : str * str) : str :=
  escape (fst kv) ++ equals :: escape (snd kv).

(** The entries a round trip preserves: the key is not read as a comment,
    and key and value are [dumpable]. *)
Definition entry_ok (kv : str * str) : Prop :=
  startswith (fst kv) hash = false /\ startswith (fst kv) bang = false /\
  dumpable (fst kv) = true /\ dumpable (snd kv) = true.

(** Maps whose dumped text does not load back to them: a value with a line
    feed inside, a value ending in a space, a key ending in a space and a key
    ending in a backslash; and a value with a vertical tab inside. *)
Definition map_with_line_feed : PropertyMap :=
  [(lit "k", lit "a" ++ LF :: lit "b")].

Definition map_with_vertical_tab : PropertyMap :=
  [(lit "k", lit "a" ++ VT :: lit "b")].

Definition map_with_trailing_space : PropertyMap := [(lit "a", lit "v ")].

Definition map_with_key_space : PropertyMap := [(lit "a ", lit "v")].

Definition map_with_key_backslash : PropertyMap := [(lit "a\", lit "v")].

(** A map that does load back: white space, separators and backslashes
    inside and in front, an empty key and an empty value. *)
Definition map_round_trip : PropertyMap :=
  [(lit " a b", lit "c=d\:e"); ([], []); (lit "x\\y = z", TAB :: lit " #w")].

(** ** Vocabulary of the further properties *)

(** A logical line the classifier drops as a comment. *)
Definition is_comment (line : str) : bool :=
  startswith line hash || startswith line bang.

(** The physical lines end on a continued line, so that the coalescer is
    left with a pending buffer. *)
Fixpoint ends_pending (lines : list str) : bool :=
  match lines with
  | [] => false
  | l :: rest =>
      match rest with
      | [] => is_continuation l
      | _ :: _ => ends_pending rest
      end
  end.

(** A writable stream as a Python object. *)
Definition Stream (w : write_method) : PyObject :=
  {| py_format := lit "<stream>"; py_string := None;
     py_read := Missing; py_write := Method w |}.

(** The text with every line feed turned into carriage return, line feed. *)
Fixpoint to_crlf (s : str) : str :=
  match s with
  | [] => []
  | c :: t => if Ascii.eqb c LF then CR :: LF :: to_crlf t else c :: to_crlf t
  end.

(** * Properties *)

(** ** Characters and stripping *)

Lemma eqb_eq_char (a b : ascii) : Ascii.eqb a b = true <-> a = b.
Proof. apply Ascii.eqb_eq. Qed.

Lemma eqb_neq_char (a b : ascii) : Ascii.eqb a b = false <-> a <> b.
Proof. apply Ascii.eqb_neq. Qed.

Lemma sep_or_space_isspace (c : ascii) : isspace c = true -> sep_or_space c = true.
Proof. unfold sep_or_space. intros ->. apply orb_true_r. Qed.

Lemma sep_or_space_false (c : ascii) :
  sep_or_space c = false -> c <> equals /\ c <> colon /\ isspace c = false.
Proof.
  unfold sep_or_space. intros H.
  apply orb_false_iff in H. destruct H as [H Hs].
  apply orb_false_iff in H. destruct H as [He Hc].
  rewrite eqb_neq_char in He, Hc. auto.
Qed.

Lemma lstrip_head (c : ascii) (t : str) :
  isspace c = false -> lstrip (c :: t) = c :: t.
Proof. intros H. simpl. now rewrite H. Qed.

Lemma lstrip_spaces (ws s : str) :
  forallb isspace ws = true -> lstrip (ws ++ s) = lstrip s.
Proof.
  induction ws as [|c ws IH]; simpl; [reflexivity|].
  intros H. apply andb_true_iff in H. destruct H as [Hc Hws].
  rewrite Hc. auto.
Qed.

Lemma rstrip_last (s : str) (c : ascii) :
  isspace c = false -> rstrip (s ++ [c]) = s ++ [c].
Proof.
  intros H. unfold rstrip. rewrite rev_app_distr. simpl.
  rewrite H. simpl. now rewrite rev_involutive.
Qed.

Lemma rstrip_spaces (s ws : str) :
  forallb isspace ws = true -> rstrip (s ++ ws) = rstrip s.
Proof.
  intros H. unfold rstrip. rewrite rev_app_distr.
  rewrite lstrip_spaces; [reflexivity|].
  rewrite forallb_forall in *. intros x Hx. apply H. now apply in_rev.
Qed.

Lemma rstrip_nil : rstrip [] = [].
Proof. reflexivity. Qed.

Lemma lstrip_id (s : str) : starts_space s = false -> lstrip s = s.
Proof. destruct s as [|c t]; simpl; [reflexivity|]. now intros ->. Qed.

Lemma rstrip_id (s : str) : ends_space s = false -> rstrip s = s.
Proof.
  unfold ends_space, rstrip. intros H.
  rewrite lstrip_id by assumption. apply rev_involutive.
Qed.

Lemma strip_id (s : str) :
  starts_space s = false -> ends_space s = false -> strip s = s.
Proof.
  intros H1 H2. unfold strip. rewrite lstrip_id by assumption.
  now apply rstrip_id.
Qed.

(** ** The separator search *)

Lemma unescaped_separator_sep_at (line : str) (p : nat) :
  unescaped_separator line p <-> sep_at None line p.
Proof.
  unfold unescaped_separator, sep_at. split; intros [H1 H2]; split; auto.
  - destruct p as [|q]; simpl; [discriminate|]. now apply H2.
  - intros q ->. exact H2.
Qed.

Lemma sep_at_cons (prev : option ascii) (c : ascii) (t : str) (i : nat) :
  sep_at prev (c :: t) (S i) <-> sep_at (Some c) t i.
Proof.
  unfold sep_at. simpl. destruct i as [|j]; simpl; tauto.
Qed.

Lemma is_backslash_false (prev : option ascii) :
  is_backslash prev = false <-> prev <> Some backslash.
Proof.
  destruct prev as [c|]; simpl.
  - rewrite eqb_neq_char. split; intros H; congruence.
  - split; [discriminate | reflexivity].
Qed.

Lemma kv_sep_head (prev : option ascii) (c : ascii) (t : str) :
  _EXPLICIT_KV_SEP prev (c :: t) = Some (0, []) /\ sep_at prev (c :: t) 0 \/
  _EXPLICIT_KV_SEP prev (c :: t) = None /\ ~ sep_at prev (c :: t) 0.
Proof.
  unfold _EXPLICIT_KV_SEP, sep_at. simpl.
  destruct (Ascii.eqb c equals) eqn:He; simpl.
  - apply eqb_eq_char in He. subst c.
    destruct (is_backslash prev) eqn:Hb; simpl.
    + right. split; [reflexivity|]. intros [_ H].
      apply is_backslash_false in H. congruence.
    + left. apply is_backslash_false in Hb. auto.
  - destruct (Ascii.eqb c colon) eqn:Hc; simpl.
    + apply eqb_eq_char in Hc. subst c.
      destruct (is_backslash prev) eqn:Hb; simpl.
      * right. split; [reflexivity|]. intros [_ H].
        apply is_backslash_false in H. congruence.
      * left. apply is_backslash_false in Hb. auto.
    + right. split; [reflexivity|].
      apply eqb_neq_char in He, Hc. intros [[H|H] _]; congruence.
Qed.

(** [search] returns the leftmost position that holds a separator the
    lookbehind accepts, and fails only when there is none. *)
Lemma search_from_spec (s : str) :
  forall prev pos,
    match Re.search_from _EXPLICIT_KV_SEP prev pos s with
    | Some (a, b) =>
        exists i, a = pos + i /\ b = pos + S i /\ sep_at prev s i /\
                  forall j, j < i -> ~ sep_at prev s j
    | None => forall i, ~ sep_at prev s i
    end.
Proof.
  induction s as [|c t IH]; intros prev pos.
  - simpl. intros i [[H|H] _]; destruct i; discriminate.
  - cbn [Re.search_from].
    destruct (kv_sep_head prev c t) as [[E H0]|[E H0]]; rewrite E.
    + exists 0. split; [lia|]. split; [lia|]. split; [exact H0|].
      intros j Hj. lia.
    + specialize (IH (Some c) (S pos)).
      destruct (Re.search_from _EXPLICIT_KV_SEP (Some c) (S pos) t)
        as [[a b]|].
      * destruct IH as (i & -> & -> & Hi & Hmin).
        exists (S i). split; [lia|]. split; [lia|]. split.
        -- apply sep_at_cons, Hi.
        -- intros [|j] Hj; [exact H0|].
           rewrite sep_at_cons. apply Hmin. lia.
      * intros [|i]; [exact H0|]. rewrite sep_at_cons. apply IH.
Qed.

Lemma search_leftmost (line : str) (p : nat) :
  unescaped_separator line p ->
  (forall q, q < p -> ~ unescaped_separator line q) ->
  Re.search _EXPLICIT_KV_SEP line = Some (p, S p).
Proof.
  intros Hp Hmin. unfold Re.search.
  pose proof (search_from_spec line None 0) as H.
  destruct (Re.search_from _EXPLICIT_KV_SEP None 0 line) as [[a b]|].
  - destruct H as (i & -> & -> & Hi & Hlt). simpl.
    assert (i = p); [|now subst].
    destruct (Nat.lt_trichotomy i p) as [L|[L|L]]; [|assumption|].
    + exfalso. apply (Hmin i L). now apply unescaped_separator_sep_at.
    + exfalso. apply (Hlt p L). now apply unescaped_separator_sep_at.
  - exfalso. apply (H p). now apply unescaped_separator_sep_at.
Qed.

Lemma search_none (line : str) :
  (forall p, ~ unescaped_separator line p) ->
  Re.search _EXPLICIT_KV_SEP line = None.
Proof.
  intros Hno. unfold Re.search.
  pose proof (search_from_spec line None 0) as H.
  destruct (Re.search_from _EXPLICIT_KV_SEP None 0 line) as [[a b]|];
    [|reflexivity].
  destruct H as (i & _ & _ & Hi & _).
  exfalso. apply (Hno i). now apply unescaped_separator_sep_at.
Qed.

(** [find] returns the first position that holds the character. *)
Lemma find_first (s : str) (c : ascii) :
  forall p,
    nth_error s p = Some c ->
    (forall q, q < p -> nth_error s q <> Some c) ->
    find s c = Some p.
Proof.
  induction s as [|a t IH]; intros p Hp Hmin.
  - destruct p; discriminate.
  - simpl. destruct (Ascii.eqb a c) eqn:E.
    + apply eqb_eq_char in E. subst a.
      destruct p as [|p]; [reflexivity|].
      exfalso. apply (Hmin 0); [lia | reflexivity].
    + apply eqb_neq_char in E.
      destruct p as [|p]; [simpl in Hp; congruence|].
      rewrite (IH p); [reflexivity | exact Hp |].
      intros q Hq. apply (Hmin (S q)). lia.
Qed.

Lemma find_absent (s : str) (c : ascii) : ~ In c s -> find s c = None.
Proof.
  induction s as [|a t IH]; intros H; [reflexivity|].
  simpl. destruct (Ascii.eqb a c) eqn:E.
  - apply eqb_eq_char in E. subst a. exfalso. apply H. now left.
  - rewrite IH; [reflexivity|]. intros Hin. apply H. now right.
Qed.

Lemma is_record_guard (line : str) :
  is_record line ->
  truthy line && negb (startswith line hash || startswith line bang) = true.
Proof.
  intros (Hne & Hh & Hb). rewrite Hh, Hb.
  destruct line; [congruence | reflexivity].
Qed.

(** ** The line classifier *)

Ltac no_sep_here :=
  let H := fresh in
  intros [[H|H] _]; discriminate H.

Lemma parse_line_at_separator (line : str) (p : nat) :
  is_record line ->
  unescaped_separator line p ->
  (forall q, q < p -> ~ unescaped_separator line q) ->
  parse_line line =
    Some (normalize (firstn p line), normalize (skipn (S p) line)).
Proof.
  intros Hrec Hp Hmin. unfold parse_line.
  rewrite (is_record_guard _ Hrec).
  now rewrite (search_leftmost _ _ Hp Hmin).
Qed.

(** C2: a line that is not empty and does not start with [#] or [!] is split
    at its leftmost [=] or [:] that is not immediately preceded by a
    backslash; the key is the normalized text before that character and the
    value the normalized text after it.  The position the search reports is
    always such an unescaped separator.  So [a:b=c] gives key [a] and value
    [b=c], and [a\:b=c] gives key [a:b] and value [c]. *)
Theorem parse_line_explicit_separator :
  (forall line p,
      is_record line ->
      unescaped_separator line p ->
      (forall q, q < p -> ~ unescaped_separator line q) ->
      parse_line line =
        Some (normalize (firstn p line), normalize (skipn (S p) line)))
  /\ (forall line a b,
         Re.search _EXPLICIT_KV_SEP line = Some (a, b) ->
         unescaped_separator line a /\ b = S a)
  /\ parse_line (lit "a:b=c") = Some (lit "a", lit "b=c")
  /\ parse_line (lit "a\:b=c") = Some (lit "a:b", lit "c").
Proof.
  split; [|split; [|split; reflexivity]].
  - exact parse_line_at_separator.
  - intros line a b H. unfold Re.search in H.
    pose proof (search_from_spec line None 0) as S.
    rewrite H in S. destruct S as (i & -> & -> & Hi & _). simpl.
    split; [|reflexivity]. now apply unescaped_separator_sep_at.
Qed.

Lemma parse_line_explicit_separator_witness :
  is_record (lit "k\=x:v=w") /\
  unescaped_separator (lit "k\=x:v=w") 4 /\
  parse_line (lit "k\=x:v=w") = Some (lit "k=x", lit "v=w").
Proof.
  assert (R : is_record (lit "k\=x:v=w")).
  { split; [discriminate | split; reflexivity]. }
  assert (U : unescaped_separator (lit "k\=x:v=w") 4).
  { split; [right; reflexivity|]. intros q E. injection E as <-. discriminate. }
  split; [exact R | split; [exact U|]].
  apply (proj1 parse_line_explicit_separator (lit "k\=x:v=w") 4 R U).
  intros q Hq.
  destruct q as [|[|[|[|q]]]]; try lia; try no_sep_here.
  intros [_ H]. apply (H 1 eq_refl). reflexivity.
Defined.

(** C4: a line that is not empty, is not a comment and holds no unescaped
    [=] or [:] is split at its first space character: the key is the
    normalized text before the space and the value the normalized text from
    the space on, so [foo bar] gives key [foo] and value [bar]; when the line
    holds no space either, the whole normalized line is the key and the value
    is the empty string. *)
Theorem parse_line_space_fallback :
  (forall line p,
      is_record line ->
      (forall q, ~ unescaped_separator line q) ->
      nth_error line p = Some space ->
      (forall q, q < p -> nth_error line q <> Some space) ->
      parse_line line =
        Some (normalize (firstn p line), normalize (skipn p line)))
  /\ (forall line,
         is_record line ->
         (forall q, ~ unescaped_separator line q) ->
         ~ In space line ->
         parse_line line = Some (normalize line, []))
  /\ parse_line (lit "foo bar") = Some (lit "foo", lit "bar").
Proof.
  split; [|split; [|reflexivity]].
  - intros line p Hrec Hno Hp Hmin. unfold parse_line.
    rewrite (is_record_guard _ Hrec), (search_none _ Hno).
    now rewrite (find_first _ _ _ Hp Hmin).
  - intros line Hrec Hno Hsp. unfold parse_line.
    rewrite (is_record_guard _ Hrec), (search_none _ Hno).
    now rewrite (find_absent _ _ Hsp).
Qed.

Lemma parse_line_space_fallback_witness :
  parse_line (lit "k\:1 v w") = Some (lit "k:1", lit "v w") /\
  parse_line (lit "k\=1") = Some (lit "k=1", []).
Proof.
  split.
  - apply (proj1 parse_line_space_fallback (lit "k\:1 v w") 4).
    + split; [discriminate | split; reflexivity].
    + intros q.
      destruct q as [|[|[|[|[|[|[|[|q]]]]]]]]; try no_sep_here.
      * intros [_ H]. apply (H 1 eq_refl). reflexivity.
      * intros [[H|H] _]; destruct q; discriminate H.
    + reflexivity.
    + intros q Hq. destruct q as [|[|[|[|q]]]]; try lia; discriminate.
  - apply (proj1 (proj2 parse_line_space_fallback) (lit "k\=1")).
    + split; [discriminate | split; reflexivity].
    + intros q.
      destruct q as [|[|[|[|q]]]]; try no_sep_here.
      * intros [_ H]. apply (H 1 eq_refl). reflexivity.
      * intros [[H|H] _]; destruct q; discriminate H.
    + intros H. repeat (destruct H as [H|H]; [discriminate H|]). exact H.
Defined.

(** ** The line coalescer *)


Lemma isspace_backslash : isspace backslash = false.
Proof. reflexivity. Qed.

(** Stripping a line made of white space, a body that does not start with
    white space, a backslash and white space leaves the body and the
    backslash. *)
Lemma strip_continuation (ws1 body ws2 : str) :
  forallb isspace ws1 = true ->
  forallb isspace ws2 = true ->
  starts_space body = false ->
  strip (ws1 ++ body ++ backslash :: ws2) = body ++ [backslash].
Proof.
  intros H1 H2 Hb. unfold strip.
  rewrite lstrip_spaces by assumption.
  rewrite lstrip_id.
  - change (body ++ backslash :: ws2) with (body ++ [backslash] ++ ws2).
    rewrite app_assoc, rstrip_spaces by assumption.
    apply rstrip_last, isspace_backslash.
  - destruct body; [reflexivity | exact Hb].
Qed.

Lemma coalesce_from_continuations (cs : list str) :
  forall buffer rest,
    Forall (fun l => is_continuation l = true) cs ->
    coalesce_from buffer (cs ++ rest) =
      coalesce_from (buffer ++ List.concat (map segment cs)) rest.
Proof.
  induction cs as [|c cs IH]; intros buffer rest H.
  - simpl. now rewrite app_nil_r.
  - inversion H as [|? ? Hc Hcs]; subst.
    cbn [app coalesce_from map List.concat].
    unfold is_continuation in Hc. rewrite Hc.
    rewrite IH by assumption. unfold segment at 2. now rewrite app_assoc.
Qed.

Lemma coalesce_from_final (buffer final : str) (rest : list str) :
  is_continuation final = false ->
  coalesce_from buffer (final :: rest) =
    (if truthy buffer then buffer ++ rstrip final else strip final)
      :: coalesce_from [] rest.
Proof.
  intros H. cbn [coalesce_from]. unfold is_continuation in H. now rewrite H.
Qed.

Lemma coalesce_from_trailing (lines cs : list str) :
  Forall (fun l => is_continuation l = true) cs ->
  forall buffer, coalesce_from buffer (lines ++ cs) = coalesce_from buffer lines.
Proof.
  intros H. induction lines as [|l lines IH]; intros buffer.
  - simpl. rewrite <- (app_nil_r cs).
    now rewrite coalesce_from_continuations.
  - cbn [app coalesce_from]. now rewrite !IH.
Qed.




(** C6: when the input ends on continued lines, what the buffer holds is
    dropped: the coalescer yields nothing for them, whatever the buffer held
    before, and the loaded map is the one of the lines before them. *)
Theorem coalesce_drops_pending_continuation :
  forall lines cs,
    Forall (fun l => is_continuation l = true) cs ->
    (forall buffer, coalesce_from buffer cs = []) /\
    coalesce_lines (lines ++ cs) = coalesce_lines lines /\
    _parse (lines ++ cs) = _parse lines.
Proof.
  intros lines cs H.
  assert (E : coalesce_lines (lines ++ cs) = coalesce_lines lines)
    by now apply coalesce_from_trailing.
  split; [|split; [exact E|]].
  - intros buffer. rewrite <- (app_nil_r cs).
    now rewrite coalesce_from_continuations.
  - unfold _parse. now rewrite E.
Qed.

Lemma coalesce_drops_pending_continuation_witness :
  coalesce_from (lit "pending") [lit "b=2\"; lit " more \ "] = [] /\
  _parse ([lit "a=1"] ++ [lit "b=2\"; lit " more \ "]) = [(lit "a", lit "1")].
Proof.
  assert (H : Forall (fun l => is_continuation l = true)
                     [lit "b=2\"; lit " more \ "]) by repeat constructor.
  destruct (coalesce_drops_pending_continuation [lit "a=1"] _ H)
    as (H1 & _ & H3).
  split; [apply H1 | exact H3].
Defined.

(** C10: a physical line made of white space and one backslash adds nothing
    to the buffer, so with an empty buffer it stays empty: the coalescer goes
    on as if the line were absent, and a following line that is not
    continued is yielded as a fresh line, stripped on both sides. *)
Theorem coalesce_bare_backslash :
  forall ws1 ws2 next rest,
    forallb isspace ws1 = true ->
    forallb isspace ws2 = true ->
    segment (ws1 ++ backslash :: ws2) = [] /\
    coalesce_from [] ((ws1 ++ backslash :: ws2) :: rest) =
      coalesce_from [] rest /\
    (is_continuation next = false ->
     coalesce_lines ((ws1 ++ backslash :: ws2) :: next :: rest) =
       strip next :: coalesce_lines rest).
Proof.
  intros ws1 ws2 next rest H1 H2.
  assert (S : strip (ws1 ++ backslash :: ws2) = [backslash])
    by exact (strip_continuation ws1 [] ws2 H1 H2 eq_refl).
  assert (E : forall r, coalesce_from [] ((ws1 ++ backslash :: ws2) :: r) =
                        coalesce_from [] r).
  { intros r. cbn [coalesce_from]. now rewrite S. }
  split; [|split].
  - unfold segment. now rewrite S.
  - apply E.
  - intros Hn. unfold coalesce_lines. rewrite E.
    now rewrite coalesce_from_final.
Qed.

Lemma coalesce_bare_backslash_witness :
  coalesce_lines [lit "  \ "; lit "  k v  "; lit "x"] = [lit "k v"; lit "x"].
Proof.
  apply (coalesce_bare_backslash (lit "  ") (lit " ") (lit "  k v  ")
           [lit "x"]); reflexivity.
Defined.

(** ** The dumper *)

Lemma sep_or_space_spec (c : ascii) :
  sep_or_space c = true <-> c = equals \/ c = colon \/ isspace c = true.
Proof.
  unfold sep_or_space. rewrite !orb_true_iff, !eqb_eq_char. tauto.
Qed.

Lemma escape_sub_from (token : str) :
  forall prev,
    Re.sub_from escape_pattern (fun g => backslash :: g) prev 0 token =
      flat_map escaped_char token.
Proof.
  induction token as [|c t IH]; intros prev; [reflexivity|].
  cbn [Re.sub_from flat_map]. unfold escape_pattern, escaped_char at 1.
  destruct (sep_or_space c); simpl; now rewrite IH.
Qed.

Lemma escape_flat_map (token : str) : escape token = flat_map escaped_char token.
Proof. apply escape_sub_from. Qed.

Lemma write_accepting (w : write_method) (items : list (str * str)) :
  (forall accepted text, w accepted text = None) ->
  forall accepted,
    write items w accepted = (map (fun kv => CallWrite (entry_line kv)) items, None).
Proof.
  intros Hw. induction items as [|kv rest IH]; intros accepted.
  - reflexivity.
  - cbn [write map]. rewrite Hw, IH. reflexivity.
Qed.

(** C5: on a destination that takes what it is given, [dump] makes one
    [write] call per entry of the map, in the order of the map, each with
    the text [escape key], [=], [escape value] and a line feed, where
    [escape] puts a backslash before every [=], [:] and white space
    character and leaves the other characters as they are; to a path the
    same calls are made between opening and closing the file.  Dumping the
    map of [a b] to [c=d] writes the line [a\ b=c\=d]. *)
Theorem dump_writes_escaped_lines :
  (forall open props output w,
      py_write output = Method w ->
      (forall accepted text, w accepted text = None) ->
      dump open props output =
        (map (fun kv => CallWrite (escape (fst kv) ++ [equals] ++
                               escape (snd kv) ++ [LF]))
             (OrderedDict.items props), None))
  /\ (forall open props output path w,
         ~ callable (py_write output) ->
         py_string output = Some path ->
         open path (lit "w+a") = inr w ->
         (forall accepted text, w accepted text = None) ->
         written (fst (dump open props output)) =
           List.concat (map (fun kv => escape (fst kv) ++ [equals] ++
                                       escape (snd kv) ++ [LF])
                            (OrderedDict.items props)))
  /\ (forall token, escape token = flat_map escaped_char token)
  /\ (forall c,
         escaped_char c =
           if sep_or_space c then [backslash; c] else [c])
  /\ (forall c,
         sep_or_space c = true <->
         c = equals \/ c = colon \/ isspace c = true)
  /\ dump_to_string [(lit "a b", lit "c=d")] = lit "a\ b=c\=d" ++ [LF].
Proof.
  split; [|split; [|split; [|split; [|split; [|reflexivity]]]]].
  - intros open props output w Hw Hacc. unfold dump. rewrite Hw.
    now apply write_accepting.
  - intros open props output path w Hnc Hs Ho Hacc. unfold dump.
    destruct (py_write output) as [| |m] eqn:E;
      try (rewrite Hs, Ho, (write_accepting w _ Hacc); simpl;
           unfold OrderedDict.items;
           induction props as [|kv rest IH]; simpl;
           [reflexivity | unfold entry_line at 1; simpl;
                          rewrite <- !app_assoc; simpl; now rewrite IH]).
    exfalso. apply Hnc. now exists m.
  - apply escape_flat_map.
  - reflexivity.
  - apply sep_or_space_spec.
Qed.

Lemma dump_writes_escaped_lines_witness :
  dump no_open [(lit "k:1", lit "v w"); (lit "x", lit "y")] (StringIO []) =
    ([CallWrite (lit "k\:1=v\ w" ++ [LF]); CallWrite (lit "x=y" ++ [LF])], None).
Proof.
  apply (proj1 dump_writes_escaped_lines no_open
           [(lit "k:1", lit "v w"); (lit "x", lit "y")] (StringIO [])
           (fun _ _ => None)); reflexivity.
Defined.

(** ** The map built by the loader *)

Import OrderedDict.

Lemma setitem_keys_in (d : t) (k v : str) :
  In k (keys d) -> keys (setitem d k v) = keys d.
Proof.
  unfold keys. induction d as [|[k0 v0] rest IH]; simpl; [tauto|].
  intros H. destruct (str_eq_dec k0 k) as [E|N]; simpl; [reflexivity|].
  f_equal. apply IH. destruct H; congruence.
Qed.

Lemma setitem_notin (d : t) (k v : str) :
  ~ In k (keys d) -> setitem d k v = d ++ [(k, v)].
Proof.
  unfold keys. induction d as [|[k0 v0] rest IH]; simpl; [reflexivity|].
  intros H. destruct (str_eq_dec k0 k) as [E|N]; [tauto|].
  f_equal. apply IH. tauto.
Qed.

Lemma setitem_nodup (d : t) (k v : str) :
  NoDup (keys d) -> NoDup (keys (setitem d k v)).
Proof.
  intros H. destruct (in_dec str_eq_dec k (keys d)) as [I|I].
  - now rewrite setitem_keys_in.
  - rewrite setitem_notin by assumption. unfold keys in *.
    rewrite map_app. simpl. apply NoDup_app; [assumption | | ].
    + constructor; [intros [] | constructor].
    + intros x Hx [Hk|[]]. simpl in Hk. congruence.
Qed.

Lemma get_setitem_same (d : t) (k v : str) : get (setitem d k v) k = Some v.
Proof.
  induction d as [|[k0 v0] rest IH]; simpl.
  - destruct (str_eq_dec k k); congruence.
  - destruct (str_eq_dec k0 k) as [E|N]; simpl.
    + destruct (str_eq_dec k0 k); congruence.
    + destruct (str_eq_dec k0 k); [congruence | exact IH].
Qed.

Lemma get_setitem_other (d : t) (k v k' : str) :
  k' <> k -> get (setitem d k v) k' = get d k'.
Proof.
  intros N. induction d as [|[k0 v0] rest IH]; simpl.
  - destruct (str_eq_dec k k'); congruence.
  - destruct (str_eq_dec k0 k) as [E|E]; simpl.
    + destruct (str_eq_dec k0 k'); congruence.
    + destruct (str_eq_dec k0 k'); [reflexivity | exact IH].
Qed.

Lemma fold_parse_step (logical : list str) :
  forall d, fold_left parse_step logical d = fold_left put (produced logical) d.
Proof.
  induction logical as [|l rest IH]; intros d; [reflexivity|].
  unfold produced. cbn [fold_left flat_map]. rewrite fold_left_app.
  fold (produced rest). rewrite <- IH. f_equal.
  unfold parse_step, pair_of. destruct (parse_line l) as [[k v]|]; reflexivity.
Qed.

Lemma fold_put_nodup (pairs : list (str * str)) :
  forall d, NoDup (keys d) -> NoDup (keys (fold_left put pairs d)).
Proof.
  induction pairs as [|kv rest IH]; intros d H; [exact H|].
  simpl. apply IH. now apply setitem_nodup.
Qed.

Lemma fold_put_keys (pairs : list (str * str)) :
  forall d seen,
    (forall k, In k seen <-> In k (keys d)) ->
    keys (fold_left put pairs d) = keys d ++ first_seen seen (map fst pairs).
Proof.
  induction pairs as [|[k v] rest IH]; intros d seen Hseen.
  - simpl. now rewrite app_nil_r.
  - cbn [fold_left map first_seen fst]. unfold put at 2. simpl.
    destruct (in_dec str_eq_dec k seen) as [I|I].
    + rewrite (IH _ seen).
      * rewrite setitem_keys_in; [reflexivity | now apply Hseen].
      * intros x. rewrite setitem_keys_in; [apply Hseen | now apply Hseen].
    + assert (N : ~ In k (keys d)) by (intros H; apply I; now apply Hseen).
      rewrite (IH _ (k :: seen)).
      * rewrite setitem_notin by assumption. unfold keys. rewrite map_app.
        simpl. now rewrite <- app_assoc.
      * intros x. rewrite setitem_notin by assumption. unfold keys.
        rewrite map_app, in_app_iff. simpl.
        specialize (Hseen x). unfold keys in Hseen. tauto.
Qed.

Lemma fold_put_get (pairs : list (str * str)) (key : str) :
  forall d,
    get (fold_left put pairs d) key =
      match last_value pairs key with
      | Some v => Some v
      | None => get d key
      end.
Proof.
  induction pairs as [|[k v] rest IH]; intros d; [reflexivity|].
  cbn [fold_left last_value]. rewrite IH. unfold put. simpl.
  destruct (last_value rest key); [reflexivity|].
  destruct (str_eq_dec k key) as [E|N].
  - subst. apply get_setitem_same.
  - apply get_setitem_other. congruence.
Qed.

Lemma last_value_app (l1 l2 : list (str * str)) (key : str) :
  last_value (l1 ++ l2) key =
    match last_value l2 key with
    | Some v => Some v
    | None => last_value l1 key
    end.
Proof.
  induction l1 as [|[k v] rest IH]; simpl.
  - destruct (last_value l2 key); reflexivity.
  - rewrite IH. destruct (last_value l2 key); reflexivity.
Qed.

Lemma last_value_absent (l : list (str * str)) (key : str) :
  ~ In key (map fst l) -> last_value l key = None.
Proof.
  induction l as [|[k v] rest IH]; simpl; [reflexivity|].
  intros H. rewrite IH by tauto.
  destruct (str_eq_dec k key); [tauto | reflexivity].
Qed.

(** C7: the map under construction never holds a key twice.  Assigning to a
    key the map holds replaces its value and leaves the order of the keys
    unchanged.  The loaded map lists the keys in the order in which the lines
    first produce them, and gives each key the value of the last line that
    produces it; in particular, of two lines producing the same key the
    later one decides the value.  Loading the two lines [a=1] and [a=2]
    gives the map of [a] to [2]. *)
Theorem load_keeps_one_entry_per_key :
  (forall lines done todo,
      coalesce_lines lines = done ++ todo ->
      NoDup (keys (fold_left parse_step done empty)))
  /\ (forall d k v,
         In k (keys d) ->
         keys (setitem d k v) = keys d /\ get (setitem d k v) k = Some v)
  /\ (forall lines,
         keys (_parse lines) =
           first_seen [] (map fst (produced (coalesce_lines lines))))
  /\ (forall lines key,
         get (_parse lines) key =
           last_value (produced (coalesce_lines lines)) key)
  /\ (forall lines before k v1 between v2 after,
         produced (coalesce_lines lines) =
           before ++ (k, v1) :: between ++ (k, v2) :: after ->
         ~ In k (map fst after) ->
         get (_parse lines) k = Some v2)
  /\ load (PyStr (lit "a=1" ++ LF :: lit "a=2" ++ [LF])) =
       Ok [(lit "a", lit "2")].
Proof.
  assert (G : forall lines key,
             get (_parse lines) key =
               last_value (produced (coalesce_lines lines)) key).
  { intros lines key. unfold _parse. rewrite fold_parse_step, fold_put_get.
    destruct (last_value _ key); reflexivity. }
  split; [|split; [|split; [|split; [exact G|split; [|reflexivity]]]]].
  - intros lines done todo _. rewrite fold_parse_step.
    apply fold_put_nodup. constructor.
  - intros d k v H. split; [now apply setitem_keys_in | apply get_setitem_same].
  - intros lines. unfold _parse. rewrite fold_parse_step.
    rewrite (fold_put_keys _ empty []); [reflexivity|]. intros k. reflexivity.
  - intros lines before k v1 between v2 after E Hafter.
    rewrite G, E. rewrite last_value_app.
    change ((k, v1) :: between ++ (k, v2) :: after)
      with (((k, v1) :: between) ++ (k, v2) :: after).
    rewrite last_value_app. cbn [last_value].
    rewrite (last_value_absent after k Hafter).
    destruct (str_eq_dec k k); [reflexivity | congruence].
Qed.

Lemma load_keeps_one_entry_per_key_witness :
  get (_parse [lit "b=0"; lit "a=1"; lit "# c"; lit "a=2"; lit "c=3"])
      (lit "a") = Some (lit "2") /\
  keys (_parse [lit "b=0"; lit "a=1"; lit "# c"; lit "a=2"; lit "c=3"]) =
    [lit "b"; lit "a"; lit "c"].
Proof.
  split; [|reflexivity].
  apply (proj1 (proj2 (proj2 (proj2 (proj2 load_keeps_one_entry_per_key))))
           [lit "b=0"; lit "a=1"; lit "# c"; lit "a=2"; lit "c=3"]
           [(lit "b", lit "0")] (lit "a") (lit "1") [] (lit "2")
           [(lit "c", lit "3")]).
  - reflexivity.
  - simpl. intros [H|[]]. discriminate H.
Defined.

(** ** Errors *)

Lemma write_raises (items : list (str * str)) (w : write_method) :
  forall accepted,
    snd (write items w accepted) = None \/
    exists errno, snd (write items w accepted) = Some (EnvironmentError errno).
Proof.
  induction items as [|kv rest IH]; intros accepted; [now left|].
  cbn [write]. destruct (w accepted (entry_line kv)) as [errno|].
  - right. now exists errno.
  - specialize (IH (accepted ++ [entry_line kv])).
    destruct (write rest w (accepted ++ [entry_line kv])) as [evs r].
    exact IH.
Qed.

Lemma dump_path_raises (open : str -> str -> open_error + write_method)
      (props : PropertyMap) (path message : str) :
  snd (match open path (lit "w+a") with
       | inl failure =>
           ([CallOpen path (lit "w+a")], Some (open_exception failure))
       | inr out =>
           let (evs, r) := write (items props) out [] in
           (CallOpen path (lit "w+a") :: evs ++ [CallClose], r)
       end) <> Some (TypeError message).
Proof.
  destruct (open path (lit "w+a")) as [[|errno]|w]; [discriminate..|].
  pose proof (write_raises (items props) w []) as R.
  destruct (write (items props) w []) as [evs r]. simpl in *.
  destruct R as [R|[errno R]]; congruence.
Qed.

Lemma parse_line_classifies (line : str) :
  (line = [] /\ parse_line line = None) \/
  ((startswith line hash = true \/ startswith line bang = true) /\
   parse_line line = None) \/
  (is_record line /\ exists key value, parse_line line = Some (key, value)).
Proof.
  destruct line as [|c t]; [now left|]. right.
  destruct (startswith (c :: t) hash) eqn:Hh.
  { left. split; [now left|]. unfold parse_line. now rewrite Hh. }
  destruct (startswith (c :: t) bang) eqn:Hb.
  { left. split; [now right|]. unfold parse_line. rewrite Hh, Hb. reflexivity. }
  right. split; [split; [discriminate | now split]|].
  unfold parse_line. rewrite Hh, Hb. cbn [truthy orb negb andb].
  destruct (Re.search _EXPLICIT_KV_SEP (c :: t)) as [[a b]|]; [eauto|].
  destruct (find (c :: t) space); eauto.
Qed.

(** C8: [load] raises its [TypeError] exactly when the argument has no
    callable [read] and is not a string, and [dump] raises its [TypeError]
    exactly when the destination has no callable [write] and is not a string;
    [dump] then has made no call at all.  The text itself never makes [load]
    fail: a string, and a stream whose [read] returns, always load to a map,
    and every logical line is a blank line, a comment or a pair. *)
Theorem type_errors_only_for_wrong_shapes :
  (forall data,
      (exists message, load data = Raise (TypeError message)) <->
      ~ callable (py_read data) /\ py_string data = None)
  /\ (forall open props output,
         (exists message,
             snd (dump open props output) = Some (TypeError message)) <->
         ~ callable (py_write output) /\ py_string output = None)
  /\ (forall open props output,
         ~ callable (py_write output) -> py_string output = None ->
         dump open props output =
           ([], Some (TypeError (dump_message ++ py_format output))))
  /\ (forall data text,
         py_read data = Method (inr text) \/
         (~ callable (py_read data) /\ py_string data = Some text) ->
         load data = Ok (_parse (splitlines text)))
  /\ (forall line,
         (line = [] /\ parse_line line = None) \/
         ((startswith line hash = true \/ startswith line bang = true) /\
          parse_line line = None) \/
         (is_record line /\
          exists key value, parse_line line = Some (key, value))).
Proof.
  split; [|split; [|split; [|split; [|exact parse_line_classifies]]]].
  - intros data. unfold load, callable.
    destruct (py_read data) as [| |[errno|text]];
      destruct (py_string data) as [s|]; split;
      solve [ intros [message H]; discriminate H
            | intros [_ H]; discriminate H
            | intros [H _]; exfalso; apply H; eexists; reflexivity
            | intros _; split; [intros [m H]; discriminate H | reflexivity]
            | intros _; eexists; reflexivity ].
  - intros open props output. unfold dump, callable.
    destruct (py_write output) as [| |w].
    + destruct (py_string output) as [path|]; split.
      * intros [message H]. exfalso. now apply (dump_path_raises open props path message).
      * intros [_ H]; discriminate H.
      * intros _; split; [intros [m H]; discriminate H | reflexivity].
      * intros _; eexists; reflexivity.
    + destruct (py_string output) as [path|]; split.
      * intros [message H]. exfalso. now apply (dump_path_raises open props path message).
      * intros [_ H]; discriminate H.
      * intros _; split; [intros [m H]; discriminate H | reflexivity].
      * intros _; eexists; reflexivity.
    + split.
      * intros [message H]. exfalso.
        pose proof (write_raises (items props) w []) as R.
        destruct R as [R|[errno R]]; congruence.
      * intros [H _]. exfalso. apply H. eexists; reflexivity.
  - intros open props output Hw Hs. unfold dump, callable in *.
    destruct (py_write output) as [| |w]; rewrite ?Hs; try reflexivity.
    exfalso. apply Hw. eexists; reflexivity.
  - intros data text [H|[Hr Hs]]; unfold load, callable in *.
    + now rewrite H.
    + destruct (py_read data) as [| |m]; rewrite ?Hs; try reflexivity.
      exfalso. apply Hr. eexists; reflexivity.
Qed.

Lemma type_errors_only_for_wrong_shapes_witness :
  dump no_open [(lit "k", lit "v")]
       {| py_format := lit "42"; py_string := None;
          py_read := Missing; py_write := NotCallable |} =
    ([], Some (TypeError (dump_message ++ lit "42"))).
Proof.
  apply (proj1 (proj2 (proj2 type_errors_only_for_wrong_shapes))).
  - intros [m H]. discriminate H.
  - reflexivity.
Defined.

(** ** Escaping and its inverse *)

Lemma sep_or_space_backslash : sep_or_space backslash = false.
Proof. reflexivity. Qed.

Lemma escape_app (a b : str) : escape (a ++ b) = escape a ++ escape b.
Proof. rewrite !escape_flat_map. apply flat_map_app. Qed.

Lemma escape_cons (c : ascii) (t : str) :
  escape (c :: t) = escaped_char c ++ escape t.
Proof. now rewrite !escape_flat_map. Qed.

(** The escaped text never starts with a character of the class. *)
Lemma escape_head_plain (t : str) (c : ascii) (rest : str) :
  escape t = c :: rest -> sep_or_space c = false.
Proof.
  destruct t as [|a t]; [discriminate|].
  rewrite escape_cons. unfold escaped_char.
  destruct (sep_or_space a) eqn:E; simpl; intros H; injection H as <- _.
  - apply sep_or_space_backslash.
  - exact E.
Qed.

(** Un-escaping undoes escaping, whatever the token holds. *)
Lemma unescape_escape (t : str) :
  forall prev,
    Re.sub_from unescape_pattern (fun g => g) prev 0 (escape t) = t.
Proof.
  induction t as [|a t IH]; intros prev; [reflexivity|].
  rewrite escape_cons. unfold escaped_char.
  destruct (sep_or_space a) eqn:E.
  - cbn [app Re.sub_from unescape_pattern].
    rewrite Ascii.eqb_refl, E. cbn [andb app Re.sub_from].
    now rewrite IH.
  - cbn [app Re.sub_from]. specialize (IH (Some a)).
    destruct (escape t) as [|c rest] eqn:Et.
    + cbn [unescape_pattern]. simpl in IH. now rewrite <- IH.
    + cbn [unescape_pattern].
      rewrite (escape_head_plain t c rest Et), andb_false_r.
      now rewrite IH.
Qed.

Lemma starts_space_escape (t : str) : starts_space (escape t) = false.
Proof.
  destruct (escape t) as [|c rest] eqn:E; [reflexivity|]. simpl.
  apply escape_head_plain in E. now apply sep_or_space_false in E.
Qed.

Lemma last_char_app (a b : str) :
  last_char (a ++ b) =
    match last_char b with
    | Some c => Some c
    | None => last_char a
    end.
Proof.
  unfold last_char. rewrite rev_app_distr.
  destruct (rev b); reflexivity.
Qed.

Lemma last_char_escape (t : str) : last_char (escape t) = last_char t.
Proof.
  induction t as [|c t IH] using rev_ind; [reflexivity|].
  rewrite escape_app, !last_char_app.
  replace (escape [c]) with (escaped_char c)
    by (rewrite escape_flat_map; simpl; now rewrite app_nil_r).
  unfold escaped_char. destruct (sep_or_space c); reflexivity.
Qed.

Lemma ends_space_last (s : str) :
  ends_space s = match last_char s with
                 | Some c => isspace c
                 | None => false
                 end.
Proof. unfold ends_space, last_char. destruct (rev s); reflexivity. Qed.

Lemma endswith_last_char (s : str) (c : ascii) :
  endswith s c = match last_char s with
                 | Some a => Ascii.eqb a c
                 | None => false
                 end.
Proof. unfold endswith, last_char. destruct (rev s); reflexivity. Qed.

Lemma dumpable_spec (t : str) :
  dumpable t = true ->
  (forall c, In c t -> is_linebreak c = false) /\
  (forall c, last_char t = Some c -> isspace c = false /\ c <> backslash).
Proof.
  unfold dumpable. rewrite !andb_true_iff, !negb_true_iff.
  intros [[Hl Hs] Hb]. split.
  - intros c Hc. destruct (is_linebreak c) eqn:E; [|reflexivity].
    assert (X : existsb is_linebreak t = true)
      by (apply existsb_exists; eauto).
    congruence.
  - intros c Hc. rewrite ends_space_last, Hc in Hs.
    rewrite endswith_last_char, Hc in Hb.
    split; [exact Hs | now apply eqb_neq_char].
Qed.

(** [normalize] undoes [escape] on a token that does not end in white
    space. *)
Lemma normalize_escape (t : str) :
  ends_space t = false -> normalize (escape t) = t.
Proof.
  intros H. unfold normalize. rewrite strip_id.
  - apply unescape_escape.
  - apply starts_space_escape.
  - now rewrite ends_space_last, last_char_escape, <- ends_space_last.
Qed.

(** In escaped text every character of the class follows a backslash. *)
Lemma escape_guarded (t : str) :
  forall q c,
    nth_error (escape t) q = Some c ->
    sep_or_space c = true ->
    exists r, q = S r /\ nth_error (escape t) r = Some backslash.
Proof.
  induction t as [|a t IH]; intros q c Hq Hc.
  - destruct q; discriminate.
  - rewrite escape_cons in *. unfold escaped_char in *.
    destruct (sep_or_space a) eqn:E; cbn [app] in *.
    + destruct q as [|[|q]]; simpl in Hq.
      * injection Hq as <-. rewrite sep_or_space_backslash in Hc. discriminate.
      * exists 0. now split.
      * destruct (IH q c Hq Hc) as (r & -> & Hr).
        exists (S (S r)). split; [reflexivity | exact Hr].
    + destruct q as [|q]; simpl in Hq.
      * injection Hq as <-. congruence.
      * destruct (IH q c Hq Hc) as (r & -> & Hr).
        exists (S r). split; [reflexivity | exact Hr].
Qed.

(** ** One entry: from the written line back to the pair *)

Lemma nth_error_last_char (s : str) (q : nat) :
  length s = S q -> nth_error s q = last_char s.
Proof.
  destruct s as [|c s] using rev_ind; [discriminate|].
  rewrite length_app, Nat.add_comm. simpl. intros E. injection E as <-.
  rewrite nth_error_app2, Nat.sub_diag by lia.
  rewrite last_char_app. reflexivity.
Qed.

Lemma last_char_record_line (k v : str) :
  last_char (record_line (k, v)) =
    match last_char v with
    | Some c => Some c
    | None => Some equals
    end.
Proof.
  unfold record_line. simpl.
  change (equals :: escape v) with ([equals] ++ escape v).
  rewrite !last_char_app, last_char_escape.
  destruct (last_char v); reflexivity.
Qed.

Lemma startswith_record_line (k v : str) (c : ascii) :
  sep_or_space c = false -> c <> backslash ->
  startswith k c = false ->
  startswith (record_line (k, v)) c = false.
Proof.
  intros Hc Hb Hk. unfold record_line. cbn [fst snd].
  destruct k as [|a t].
  - change (escape []) with (@nil ascii). cbn [app startswith].
    apply eqb_neq_char. intros <-. discriminate Hc.
  - rewrite escape_cons. unfold escaped_char.
    destruct (sep_or_space a); cbn [app startswith].
    + apply eqb_neq_char. congruence.
    + exact Hk.
Qed.

Lemma starts_space_record_line (k v : str) :
  starts_space (record_line (k, v)) = false.
Proof.
  unfold record_line. simpl.
  pose proof (starts_space_escape k) as H.
  destruct (escape k); [reflexivity | exact H].
Qed.

Lemma record_line_separator (k v : str) :
  endswith k backslash = false ->
  unescaped_separator (record_line (k, v)) (length (escape k)) /\
  forall q, q < length (escape k) ->
            ~ unescaped_separator (record_line (k, v)) q.
Proof.
  intros Hk. unfold record_line. simpl. split.
  - split.
    + left. now rewrite nth_error_app2, Nat.sub_diag by lia.
    + intros q E. rewrite nth_error_app1 by lia.
      rewrite (nth_error_last_char _ _ E), last_char_escape.
      rewrite endswith_last_char in Hk.
      destruct (last_char k) as [c|]; [|discriminate].
      apply eqb_neq_char in Hk. congruence.
  - intros q Hq [Hsep Hprev].
    rewrite nth_error_app1 in Hsep by assumption.
    assert (G : exists c, nth_error (escape k) q = Some c /\
                          sep_or_space c = true).
    { destruct Hsep as [H|H]; eexists; (split; [exact H | reflexivity]). }
    destruct G as (c & Hc & Hclass).
    destruct (escape_guarded k q c Hc Hclass) as (r & -> & Hr).
    apply (Hprev r eq_refl).
    rewrite nth_error_app1 by lia. exact Hr.
Qed.

(** The classifier reads an entry's line back as the entry. *)
Lemma parse_line_record_line (k v : str) :
  startswith k hash = false ->
  startswith k bang = false ->
  ends_space k = false ->
  endswith k backslash = false ->
  ends_space v = false ->
  parse_line (record_line (k, v)) = Some (k, v).
Proof.
  intros Hh Hb Hks Hkb Hvs.
  destruct (record_line_separator k v Hkb) as [Hsep Hmin].
  assert (R : is_record (record_line (k, v))).
  { split; [|split].
    - unfold record_line. simpl. destruct (escape k); discriminate.
    - now apply startswith_record_line.
    - now apply startswith_record_line. }
  rewrite (parse_line_at_separator _ _ R Hsep Hmin).
  unfold record_line. cbn [fst snd].
  rewrite firstn_app, firstn_all, Nat.sub_diag, firstn_O, app_nil_r.
  rewrite skipn_app, skipn_all2 by lia.
  replace (S (length (escape k)) - length (escape k)) with 1 by lia.
  cbn [app skipn]. now rewrite !normalize_escape.
Qed.

(** The coalescer passes an entry's line on unchanged. *)
Lemma record_line_plain (k v : str) :
  dumpable v = true ->
  strip (record_line (k, v)) = record_line (k, v) /\
  is_continuation (record_line (k, v)) = false.
Proof.
  intros Hv. apply dumpable_spec in Hv. destruct Hv as [_ Hlast].
  assert (L : exists c, last_char (record_line (k, v)) = Some c /\
                        isspace c = false /\ c <> backslash).
  { rewrite last_char_record_line. destruct (last_char v) as [c|].
    - exists c. split; [reflexivity | now apply Hlast].
    - exists equals. repeat split. discriminate. }
  destruct L as (c & Hc & Hsp & Hbs).
  assert (S : strip (record_line (k, v)) = record_line (k, v)).
  { apply strip_id; [apply starts_space_record_line|].
    now rewrite ends_space_last, Hc. }
  split; [exact S|].
  unfold is_continuation. rewrite S, endswith_last_char, Hc.
  now apply eqb_neq_char.
Qed.

(** ** The whole text: from [dump] to [load] *)

Lemma is_linebreak_not_cr (c : ascii) :
  is_linebreak c = false -> Ascii.eqb c CR = false.
Proof.
  intros H. apply eqb_neq_char. intros ->. discriminate H.
Qed.

Lemma is_linebreak_not_lf (c : ascii) :
  is_linebreak c = false -> Ascii.eqb c LF = false.
Proof.
  intros H. apply eqb_neq_char. intros ->. discriminate H.
Qed.

Lemma splitlines_from_line (l : str) :
  (forall c, In c l -> is_linebreak c = false) ->
  forall cur rest,
    splitlines_from cur (l ++ LF :: rest) =
      (cur ++ l) :: splitlines_from [] rest.
Proof.
  induction l as [|c l IH]; intros H cur rest.
  - cbn [app splitlines_from].
    change (Ascii.eqb LF CR) with false. change (is_linebreak LF) with true.
    cbn iota. now rewrite app_nil_r.
  - cbn [app splitlines_from].
    assert (Hc : is_linebreak c = false) by (apply H; now left).
    rewrite (is_linebreak_not_cr c Hc), Hc.
    rewrite IH by (intros x Hx; apply H; now right).
    now rewrite <- app_assoc.
Qed.

Lemma in_escape (t : str) (c : ascii) :
  In c (escape t) -> c = backslash \/ In c t.
Proof.
  rewrite escape_flat_map, in_flat_map. intros (a & Ha & Hc).
  unfold escaped_char in Hc.
  destruct (sep_or_space a); simpl in Hc; intuition (subst; auto).
Qed.

Lemma record_line_no_linebreak (k v : str) :
  dumpable k = true -> dumpable v = true ->
  forall c, In c (record_line (k, v)) -> is_linebreak c = false.
Proof.
  intros Hk Hv c. apply dumpable_spec in Hk, Hv.
  unfold record_line. cbn [fst snd]. rewrite in_app_iff. cbn [In].
  intros [H|[H|H]].
  - apply in_escape in H. destruct H as [->|H]; [reflexivity | now apply Hk].
  - now subst c.
  - apply in_escape in H. destruct H as [->|H]; [reflexivity | now apply Hv].
Qed.

Lemma entry_line_record_line (kv : str * str) :
  entry_line kv = record_line kv ++ [LF].
Proof.
  unfold entry_line, record_line. now rewrite <- app_assoc, <- app_comm_cons.
Qed.

Lemma written_writes (lines : list str) :
  written (map CallWrite lines) = List.concat lines.
Proof.
  induction lines as [|l rest IH]; [reflexivity|].
  cbn [map written List.concat]. now rewrite IH.
Qed.

Lemma dump_to_string_concat (m : PropertyMap) :
  dump_to_string m = List.concat (map entry_line m).
Proof.
  unfold dump_to_string, dump, StringIO. cbn [py_write].
  rewrite write_accepting by reflexivity. cbn [fst].
  rewrite <- written_writes, map_map. reflexivity.
Qed.

Lemma splitlines_entries (m : PropertyMap) :
  (forall kv c, In kv m -> In c (record_line kv) -> is_linebreak c = false) ->
  splitlines (List.concat (map entry_line m)) = map record_line m.
Proof.
  unfold splitlines. induction m as [|kv rest IH]; intros H; [reflexivity|].
  cbn [map List.concat]. rewrite entry_line_record_line, <- app_assoc.
  cbn [app]. rewrite splitlines_from_line.
  - cbn [app]. f_equal. apply IH. intros kv' c Hin. apply H. now right.
  - intros c. apply H. now left.
Qed.

Lemma coalesce_plain_lines (lines : list str) :
  (forall l, In l lines -> strip l = l /\ is_continuation l = false) ->
  coalesce_lines lines = lines.
Proof.
  unfold coalesce_lines. induction lines as [|l rest IH]; intros H.
  - reflexivity.
  - destruct (H l (or_introl eq_refl)) as [Hs Hc].
    rewrite coalesce_from_final by assumption. cbn [truthy].
    rewrite Hs. f_equal. apply IH. intros l' Hl'. apply H. now right.
Qed.

Lemma fold_put_fresh (pairs : list (str * str)) :
  forall d, NoDup (keys d ++ map fst pairs) -> fold_left put pairs d = d ++ pairs.
Proof.
  induction pairs as [|[k v] rest IH]; intros d H.
  - simpl. now rewrite app_nil_r.
  - cbn [fold_left]. unfold put at 2. cbn [fst snd].
    assert (N : ~ In k (keys d)).
    { intros I. apply NoDup_remove_2 in H. apply H.
      apply in_or_app. now left. }
    rewrite setitem_notin by assumption. rewrite IH.
    + now rewrite <- app_assoc.
    + unfold keys in *. rewrite map_app, <- app_assoc. exact H.
Qed.

Lemma entry_ok_ends (kv : str * str) :
  entry_ok kv ->
  ends_space (fst kv) = false /\ endswith (fst kv) backslash = false /\
  ends_space (snd kv) = false.
Proof.
  intros (_ & _ & Hk & Hv). unfold dumpable in *.
  rewrite !andb_true_iff, !negb_true_iff in Hk, Hv. tauto.
Qed.

Lemma produced_record_lines (m : PropertyMap) :
  (forall kv, In kv m -> entry_ok kv) ->
  produced (map record_line m) = m.
Proof.
  induction m as [|[k v] rest IH]; intros H; [reflexivity|].
  unfold produced in *. cbn [map flat_map].
  assert (Hkv : entry_ok (k, v)) by (apply H; now left).
  destruct (entry_ok_ends _ Hkv) as (E1 & E2 & E3).
  destruct Hkv as (Hh & Hb & _ & _). cbn [fst snd] in *.
  unfold pair_of at 1. rewrite parse_line_record_line by assumption.
  cbn [app]. f_equal. apply IH. intros kv Hin. apply H. now right.
Qed.

Lemma loads_dump_to_string (m : PropertyMap) :
  NoDup (keys m) ->
  (forall kv, In kv m -> entry_ok kv) ->
  loads (dump_to_string m) = m.
Proof.
  intros Hnd Hok. unfold loads.
  rewrite dump_to_string_concat, splitlines_entries.
  - unfold _parse. rewrite coalesce_plain_lines.
    + rewrite fold_parse_step, produced_record_lines by assumption.
      now rewrite fold_put_fresh.
    + intros l Hl. apply in_map_iff in Hl. destruct Hl as ([k v] & <- & Hin).
      apply record_line_plain. now apply (Hok (k, v)).
  - intros [k v] c Hin. apply record_line_no_linebreak; now apply (Hok (k, v)).
Qed.

(** C1, as amended: for every map with distinct keys whose keys do not begin
    with [#] or [!] and whose keys and values hold no character at which
    [splitlines] breaks (line feed, carriage return, vertical tab, form
    feed, the separators 28 to 30, next line) and end neither in white
    space nor in a backslash, loading the text that [dump] writes gives the
    map back; the other characters, separators, white space and backslashes
    included, are free.  On every token that does not end in white space
    [normalize] undoes [escape]. *)
Theorem load_dump_round_trip :
  (forall m : PropertyMap,
      NoDup (keys m) ->
      (forall k v, In (k, v) m ->
                   startswith k hash = false /\ startswith k bang = false /\
                   dumpable k = true /\ dumpable v = true) ->
      load (PyStr (dump_to_string m)) = Ok m)
  /\ (forall token, ends_space token = false ->
                    normalize (escape token) = token).
Proof.
  split; [|exact normalize_escape].
  intros m Hnd Hok. unfold load, PyStr. cbn [py_read py_string].
  fold (loads (dump_to_string m)). rewrite loads_dump_to_string; auto.
  intros [k v] Hin. now apply Hok.
Qed.

Lemma load_dump_round_trip_witness :
  load (PyStr (dump_to_string map_round_trip)) = Ok map_round_trip.
Proof.
  apply (proj1 load_dump_round_trip map_round_trip).
  - unfold map_round_trip. repeat constructor; simpl;
      intuition discriminate.
  - intros k v [H|[H|[H|[]]]]; injection H as <- <-;
      repeat split; reflexivity.
Defined.

(** The statement of C1 itself fails: a map whose key does not begin with
    [#] or [!] and whose value holds a line feed inside is not what its dump
    loads to; the line feed and the backslash written before it are read as
    a continuation. *)
Lemma load_dump_round_trip_counterexample :
  NoDup (keys map_with_line_feed) /\
  startswith (lit "k") hash = false /\
  startswith (lit "k") bang = false /\
  load (PyStr (dump_to_string map_with_line_feed)) = Ok [(lit "k", lit "ab")] /\
  load (PyStr (dump_to_string map_with_line_feed)) <> Ok map_with_line_feed.
Proof.
  split; [repeat constructor; intros []|].
  split; [reflexivity|]. split; [reflexivity|].
  split; [reflexivity | discriminate].
Qed.

(** The other conditions of the amended statement are needed as well: a
    value ending in a space is lost as a pending continuation, a key ending
    in a space comes back ending in a backslash, and a key ending in a
    backslash hides the separator. *)
Lemma round_trip_limits :
  load (PyStr (dump_to_string map_with_trailing_space)) = Ok [] /\
  load (PyStr (dump_to_string map_with_key_space)) =
    Ok [(lit "a\", lit "v")] /\
  load (PyStr (dump_to_string map_with_key_backslash)) =
    Ok [(lit "a=v", [])].
Proof. repeat split. Qed.

(** Every character [splitlines] breaks at is excluded for the same reason
    as the line feed: a value with a vertical tab inside comes back without
    it. *)
Lemma round_trip_limit_vertical_tab :
  dumpable (lit "a" ++ VT :: lit "b") = false /\
  load (PyStr (dump_to_string map_with_vertical_tab)) =
    Ok [(lit "k", lit "ab")].
Proof. split; reflexivity. Qed.

(** ** Dumping to a path *)

(** When the destination is a path and an [open] returns a file, the calls are:
    [open] with the mode string [w+a], the [write] calls of the loop, and
    the closing of the file, which happens also when a [write] raises; what
    the loop raises is what [dump] raises. *)
Lemma dump_to_path_calls (open : str -> str -> open_error + write_method)
      (props : PropertyMap) (output : PyObject) (path : str)
      (w : write_method) :
  ~ callable (py_write output) ->
  py_string output = Some path ->
  open path (lit "w+a") = inr w ->
  dump open props output =
    (CallOpen path (lit "w+a") :: fst (write (items props) w []) ++ [CallClose],
     snd (write (items props) w [])).
Proof.
  intros Hw Hs Ho. unfold dump.
  destruct (py_write output) as [| |m];
    try (rewrite Hs, Ho; now destruct (write (items props) w [])).
  exfalso. apply Hw. now exists m.
Qed.

Example dump_to_path_failing_write :
  dump (fun _ _ => inr (fun accepted _ =>
                          match accepted with
                          | [] => None
                          | _ :: _ => Some 28
                          end))
       [(lit "a", lit "1"); (lit "b", lit "2"); (lit "c", lit "3")]
       (PyStr (lit "out.properties")) =
    ([CallOpen (lit "out.properties") (lit "w+a");
      CallWrite (lit "a=1" ++ [LF]); CallWrite (lit "b=2" ++ [LF]);
      CallClose],
     Some (EnvironmentError 28)).
Proof. reflexivity. Qed.

Lemma dump_builtin_open (fs : str -> str -> nat + write_method)
      (props : PropertyMap) (output : PyObject) (path : str) :
  ~ callable (py_write output) ->
  py_string output = Some path ->
  dump (builtin_open fs) props output =
    ([CallOpen path (lit "w+a")], Some ValueError).
Proof.
  intros Hw Hs. unfold dump.
  destruct (py_write output) as [| |m]; try (now rewrite Hs).
  exfalso. apply Hw. now exists m.
Qed.

(** C9: given a path, [dump] calls [open] itself, with the mode string
    [w+a].  That string names two of the exclusive modes, [w] and [a], so it
    is no mode of the builtin and in particular no append mode, as [a] is:
    over every file system [open] rejects it with a [ValueError], and [dump]
    raises that error having opened, written and closed nothing. *)
Theorem dump_opens_path_with_rejected_mode :
  valid_mode (lit "w+a") = false /\
  append_mode (lit "w+a") = false /\
  append_mode (lit "a") = true /\
  (forall fs props output path,
      ~ callable (py_write output) ->
      py_string output = Some path ->
      dump (builtin_open fs) props output =
        ([CallOpen path (lit "w+a")], Some ValueError)).
Proof.
  split; [reflexivity|]. split; [reflexivity|]. split; [reflexivity|].
  exact dump_builtin_open.
Qed.

Lemma dump_opens_path_with_rejected_mode_witness :
  dump (builtin_open (fun _ _ => inr (fun _ _ => None)))
       [(lit "a", lit "1")] (PyStr (lit "out.properties")) =
    ([CallOpen (lit "out.properties") (lit "w+a")], Some ValueError).
Proof.
  apply (proj2 (proj2 (proj2 dump_opens_path_with_rejected_mode))
           (fun _ _ => inr (fun _ _ => None)) [(lit "a", lit "1")]
           (PyStr (lit "out.properties")) (lit "out.properties")).
  - intros [m H]. discriminate H.
  - reflexivity.
Defined.

(** * Further properties *)

(** ** The coalescer over a sequence of lines *)

Lemma coalesce_from_app (l1 l2 : list str) :
  l1 <> [] -> ends_pending l1 = false ->
  forall buffer,
    coalesce_from buffer (l1 ++ l2) =
      coalesce_from buffer l1 ++ coalesce_from [] l2.
Proof.
  induction l1 as [|l rest IH]; intros Hne Hp buffer; [congruence|].
  destruct rest as [|l' rest'].
  - cbn [ends_pending] in Hp. cbn [app].
    rewrite !coalesce_from_final by assumption. reflexivity.
  - assert (Hp' : ends_pending (l' :: rest') = false) by exact Hp.
    assert (Hne' : l' :: rest' <> []) by discriminate.
    change ((l :: l' :: rest') ++ l2) with (l :: (l' :: rest') ++ l2).
    cbn [coalesce_from].
    destruct (endswith (strip l) backslash).
    + now apply IH.
    + rewrite IH by assumption. reflexivity.
Qed.

Lemma coalesce_lines_app (l1 l2 : list str) :
  ends_pending l1 = false ->
  coalesce_lines (l1 ++ l2) = coalesce_lines l1 ++ coalesce_lines l2.
Proof.
  intros Hp. destruct l1 as [|l rest]; [reflexivity|].
  unfold coalesce_lines. now apply coalesce_from_app.
Qed.

Lemma parse_app (l1 l2 : list str) :
  ends_pending l1 = false ->
  _parse (l1 ++ l2) = fold_left parse_step (coalesce_lines l2) (_parse l1).
Proof.
  intros Hp. unfold _parse.
  now rewrite coalesce_lines_app, fold_left_app.
Qed.

(** X1: when the first part of the input does not end on a continued line,
    the logical lines of the whole input are those of the first part
    followed by those of the rest, and loading the whole input is loading
    the first part and then assigning the pairs of the rest, in order, on
    top of it: the keys and values are those of [fold_left put] over the
    pairs the rest produces. *)
Theorem parse_concatenated_lines :
  forall l1 l2,
    ends_pending l1 = false ->
    coalesce_lines (l1 ++ l2) = coalesce_lines l1 ++ coalesce_lines l2 /\
    _parse (l1 ++ l2) =
      fold_left put (produced (coalesce_lines l2)) (_parse l1) /\
    (forall key,
        get (_parse (l1 ++ l2)) key =
          match get (_parse l2) key with
          | Some v => Some v
          | None => get (_parse l1) key
          end).
Proof.
  intros l1 l2 Hp.
  assert (E : _parse (l1 ++ l2) =
              fold_left put (produced (coalesce_lines l2)) (_parse l1)).
  { rewrite parse_app by assumption. apply fold_parse_step. }
  split; [now apply coalesce_lines_app | split; [exact E|]].
  intros key. rewrite E, fold_put_get.
  unfold _parse at 2. rewrite fold_parse_step, fold_put_get.
  destruct (last_value (produced (coalesce_lines l2)) key); reflexivity.
Qed.

Lemma parse_concatenated_lines_witness :
  _parse ([lit "a=1"; lit "b=\"; lit "2"] ++ [lit "b=3"; lit "c=4"]) =
    [(lit "a", lit "1"); (lit "b", lit "3"); (lit "c", lit "4")].
Proof.
  rewrite (proj1 (proj2 (parse_concatenated_lines
                           [lit "a=1"; lit "b=\"; lit "2"]
                           [lit "b=3"; lit "c=4"] eq_refl))).
  reflexivity.
Defined.

(** X2: the coalescer yields exactly one logical line for every physical
    line that is not continued, and none for a continued one, whatever the
    buffer holds at the start. *)
Theorem coalesce_line_count :
  forall lines buffer,
    length (coalesce_from buffer lines) =
      length (filter (fun l => negb (is_continuation l)) lines).
Proof.
  induction lines as [|l rest IH]; intros buffer; [reflexivity|].
  cbn [coalesce_from filter]. unfold is_continuation at 1.
  destruct (endswith (strip l) backslash); cbn [negb length].
  - apply IH.
  - now rewrite IH.
Qed.

(** ** Comments and blank lines *)

Lemma parse_line_dropped (line : str) :
  line = [] \/ is_comment line = true -> parse_line line = None.
Proof.
  intros [->|H]; [reflexivity|]. unfold parse_line.
  unfold is_comment in H. rewrite H. now rewrite andb_false_r.
Qed.

Lemma parse_step_dropped (props : PropertyMap) (line : str) :
  line = [] \/ is_comment line = true -> parse_step props line = props.
Proof.
  intros H. unfold parse_step. now rewrite parse_line_dropped.
Qed.

(** X3: after lines that do not end on a continued line, a line that is not
    continued and whose stripped form is empty or starts with [#] or [!] can
    be removed from the input without changing the loaded map; that is so
    also when white space precedes the [#] or [!]. *)
Theorem parse_skips_comment_and_blank :
  forall before c after,
    ends_pending before = false ->
    is_continuation c = false ->
    strip c = [] \/ is_comment (strip c) = true ->
    _parse (before ++ c :: after) = _parse (before ++ after).
Proof.
  intros before c after Hp Hc Hdrop.
  rewrite !parse_app by assumption.
  unfold coalesce_lines. rewrite coalesce_from_final by assumption.
  cbn [truthy fold_left]. now rewrite parse_step_dropped.
Qed.

Lemma parse_skips_comment_and_blank_witness :
  _parse ([lit "a=1"] ++ lit "   # b=2 " :: [lit "c=3"]) =
    _parse ([lit "a=1"] ++ [lit "c=3"]).
Proof.
  apply parse_skips_comment_and_blank.
  - reflexivity.
  - reflexivity.
  - right. reflexivity.
Defined.

(** X4: an input in which no line is continued and every line is blank or a
    comment loads to the empty map. *)
Theorem parse_only_comments_is_empty :
  forall lines,
    Forall (fun l => is_continuation l = false /\
                     (strip l = [] \/ is_comment (strip l) = true)) lines ->
    _parse lines = [].
Proof.
  intros lines H. unfold _parse, coalesce_lines.
  induction H as [|l rest [Hc Hd] _ IH]; [reflexivity|].
  rewrite coalesce_from_final by assumption.
  cbn [truthy fold_left]. now rewrite parse_step_dropped.
Qed.

Lemma parse_only_comments_is_empty_witness :
  _parse [lit "# one"; lit "   "; []; lit "  ! two = 2"] = [].
Proof.
  apply parse_only_comments_is_empty.
  repeat constructor; (right; reflexivity) || (left; reflexivity).
Defined.

Lemma removelast_keeps_head (s : str) (x : ascii) :
  startswith s x = true -> endswith s backslash = true -> x <> backslash ->
  exists t, removelast s = x :: t.
Proof.
  destruct s as [|a t]; [discriminate|]. cbn [startswith].
  intros Ha He Hx. apply eqb_eq_char in Ha. subst a.
  destruct t as [|b t'].
  - unfold endswith in He. cbn in He. apply eqb_eq_char in He. congruence.
  - exists (removelast (b :: t')). reflexivity.
Qed.

Lemma comment_segment (c : str) :
  is_comment (strip c) = true -> is_continuation c = true ->
  truthy (segment c) = true /\ is_comment (segment c) = true.
Proof.
  unfold is_comment, is_continuation, segment. intros H Hc.
  apply orb_true_iff in H. destruct H as [H|H].
  - destruct (removelast_keeps_head _ _ H Hc) as [t ->]; [discriminate|].
    split; reflexivity.
  - destruct (removelast_keeps_head _ _ H Hc) as [t ->]; [discriminate|].
    split; reflexivity.
Qed.

(** X5: a comment line that ends in a backslash is a continued line like any
    other: it takes the following line into the comment, so that both
    contribute nothing to the loaded map. *)
Theorem parse_continued_comment_swallows_next :
  forall before c next after,
    ends_pending before = false ->
    is_comment (strip c) = true ->
    is_continuation c = true ->
    is_continuation next = false ->
    _parse (before ++ c :: next :: after) = _parse (before ++ after).
Proof.
  intros before c next after Hp Hcom Hc Hn.
  rewrite !parse_app by assumption.
  unfold coalesce_lines. cbn [coalesce_from].
  unfold is_continuation in Hc, Hn. rewrite Hc, Hn. cbn [app].
  fold (segment c). destruct (comment_segment c Hcom Hc) as [Ht Hs].
  rewrite Ht. cbn [fold_left]. rewrite parse_step_dropped; [reflexivity|].
  right. unfold is_comment in *.
  destruct (segment c) as [|a t]; [discriminate | exact Hs].
Qed.

Lemma parse_continued_comment_swallows_next_witness :
  _parse ([lit "a=1"] ++ lit "# off \" :: lit "b=2" :: [lit "c=3"]) =
    [(lit "a", lit "1"); (lit "c", lit "3")].
Proof.
  rewrite (parse_continued_comment_swallows_next
             [lit "a=1"] (lit "# off \") (lit "b=2") [lit "c=3"]);
    reflexivity.
Defined.

(** ** Where the characters of a loaded map come from *)

Section Characters.

Variable P : ascii -> Prop.

Lemma Forall_lstrip (s : str) : Forall P s -> Forall P (lstrip s).
Proof.
  induction 1 as [|c t Hc Ht IH]; [constructor|].
  cbn [lstrip]. destruct (isspace c); [exact IH | now constructor].
Qed.

Lemma Forall_rstrip (s : str) : Forall P s -> Forall P (rstrip s).
Proof.
  intros H. unfold rstrip. apply Forall_rev, Forall_lstrip, Forall_rev, H.
Qed.

Lemma Forall_strip (s : str) : Forall P s -> Forall P (strip s).
Proof. intros H. apply Forall_rstrip, Forall_lstrip, H. Qed.

Lemma Forall_removelast (s : str) : Forall P s -> Forall P (removelast s).
Proof.
  induction 1 as [|c t Hc Ht IH]; [constructor|].
  cbn [removelast]. destruct t; [constructor | now constructor].
Qed.

Lemma Forall_pieces (n : nat) (s : str) :
  Forall P s -> Forall P (firstn n s) /\ Forall P (skipn n s).
Proof.
  intros H. rewrite <- (firstn_skipn n s) in H. now apply Forall_app in H.
Qed.

Lemma Forall_unescape (s : str) :
  Forall P s ->
  forall prev skip,
    Forall P (Re.sub_from unescape_pattern (fun g => g) prev skip s).
Proof.
  induction 1 as [|c t Hc Ht IH]; intros prev skip; [constructor|].
  cbn [Re.sub_from]. destruct skip as [|k]; [|apply IH].
  unfold unescape_pattern. destruct t as [|c' t'].
  - constructor; [exact Hc | apply IH].
  - destruct (Ascii.eqb c backslash && sep_or_space c').
    + cbn [app]. constructor; [now inversion Ht | apply IH].
    + constructor; [exact Hc | apply IH].
Qed.

Lemma Forall_normalize (s : str) : Forall P s -> Forall P (normalize s).
Proof. intros H. apply Forall_unescape, Forall_strip, H. Qed.

Lemma Forall_parse_line (line key value : str) :
  Forall P line -> parse_line line = Some (key, value) ->
  Forall P key /\ Forall P value.
Proof.
  intros H. unfold parse_line.
  destruct (truthy line && negb (startswith line hash || startswith line bang));
    [|discriminate].
  destruct (Re.search _EXPLICIT_KV_SEP line) as [[a b]|].
  - intros E. injection E as <- <-.
    split; apply Forall_normalize; now apply Forall_pieces.
  - destruct (find line space) as [p|]; intros E; injection E as <- <-.
    + split; apply Forall_normalize; now apply Forall_pieces.
    + split; [now apply Forall_normalize | constructor].
Qed.

Lemma Forall_coalesce (lines : list str) :
  Forall (Forall P) lines ->
  forall buffer,
    Forall P buffer -> Forall (Forall P) (coalesce_from buffer lines).
Proof.
  induction 1 as [|l rest Hl Hrest IH]; intros buffer Hb; [constructor|].
  cbn [coalesce_from]. destruct (endswith (strip l) backslash).
  - apply IH. apply Forall_app. split; [exact Hb|].
    now apply Forall_removelast, Forall_strip.
  - constructor; [|apply IH; constructor].
    destruct (truthy buffer).
    + apply Forall_app. split; [exact Hb | now apply Forall_rstrip].
    + now apply Forall_strip.
Qed.

Lemma Forall_setitem (d : t) (key value : str) :
  Forall (fun kv => Forall P (fst kv) /\ Forall P (snd kv)) d ->
  Forall P key -> Forall P value ->
  Forall (fun kv => Forall P (fst kv) /\ Forall P (snd kv))
         (setitem d key value).
Proof.
  intros H Hk Hv. induction H as [|[k v] rest [Hk' Hv'] Hrest IH].
  - repeat constructor; assumption.
  - cbn [setitem]. destruct (str_eq_dec k key).
    + constructor; [split; assumption | exact Hrest].
    + constructor; [split; assumption | exact IH].
Qed.

Lemma Forall_parse_steps (logical : list str) :
  Forall (Forall P) logical ->
  forall d,
    Forall (fun kv => Forall P (fst kv) /\ Forall P (snd kv)) d ->
    Forall (fun kv => Forall P (fst kv) /\ Forall P (snd kv))
           (fold_left parse_step logical d).
Proof.
  induction 1 as [|l rest Hl Hrest IH]; intros d Hd; [exact Hd|].
  cbn [fold_left]. apply IH. unfold parse_step.
  destruct (parse_line l) as [[k v]|] eqn:E; [|exact Hd].
  destruct (Forall_parse_line l k v Hl E). now apply Forall_setitem.
Qed.

End Characters.

Lemma splitlines_from_chars (P : ascii -> Prop) (s : str) :
  Forall P s ->
  forall cur,
    Forall (fun c => P c /\ is_linebreak c = false) cur ->
    Forall (Forall (fun c => P c /\ is_linebreak c = false))
           (splitlines_from cur s).
Proof.
  induction 1 as [|c t Hc Ht IH]; intros cur Hcur.
  - cbn [splitlines_from]. destruct cur; [constructor|].
    constructor; [exact Hcur | constructor].
  - cbn [splitlines_from].
    destruct (Ascii.eqb c CR) eqn:E2.
    { destruct Ht as [|c' t' Hc' Ht'].
      - constructor; [exact Hcur | constructor].
      - destruct (Ascii.eqb c' LF) eqn:E3.
        + constructor; [exact Hcur|].
          specialize (IH []). cbn [splitlines_from] in IH.
          apply eqb_eq_char in E3. subst c'.
          change (Ascii.eqb LF CR) with false in IH.
          change (is_linebreak LF) with true in IH. cbn iota in IH.
          assert (G := IH (Forall_nil _)). now inversion G.
        + constructor; [exact Hcur | apply IH; constructor]. }
    destruct (is_linebreak c) eqn:E1.
    { constructor; [exact Hcur | apply IH; constructor]. }
    apply IH. apply Forall_app. split; [exact Hcur|].
    constructor; [|constructor]. split; [exact Hc | exact E1].
Qed.

(** X6: [load] invents no characters and keeps no line breaks: every
    character of a key or value of the loaded map occurs in the text, and
    none is a line feed or a carriage return. *)
Theorem loaded_characters_come_from_text :
  forall text key value c,
    In (key, value) (loads text) ->
    In c key \/ In c value ->
    In c text /\ c <> LF /\ c <> CR.
Proof.
  intros text key value c Hin Hc.
  set (Q := fun c => In c text /\ is_linebreak c = false).
  assert (L : Forall (Forall Q) (splitlines text)).
  { apply (splitlines_from_chars (fun c => In c text)); [|constructor].
    apply Forall_forall. auto. }
  assert (M : Forall (fun kv => Forall Q (fst kv) /\ Forall Q (snd kv))
                     (loads text)).
  { unfold loads, _parse. apply Forall_parse_steps; [|constructor].
    apply Forall_coalesce; [exact L | constructor]. }
  rewrite Forall_forall in M. destruct (M _ Hin) as [Hk Hv].
  cbn [fst snd] in *. rewrite Forall_forall in Hk, Hv.
  assert (G : Q c) by (destruct Hc; auto).
  destruct G as [G1 G2]. split; [exact G1|].
  pose proof (is_linebreak_not_lf c G2) as G3.
  pose proof (is_linebreak_not_cr c G2) as G4.
  apply eqb_neq_char in G3, G4. auto.
Qed.

Lemma loaded_characters_come_from_text_witness :
  In "v"%char (lit "k = v\" ++ CR :: LF :: lit "w") /\ "v"%char <> LF /\
  "v"%char <> CR.
Proof.
  apply (loaded_characters_come_from_text
           (lit "k = v\" ++ CR :: LF :: lit "w") (lit "k") (lit "vw")).
  - left. reflexivity.
  - right. left. reflexivity.
Defined.

(** ** Escaping, once more *)

Lemma unescape_escape_backslash (t : str) :
  forall prev,
    Re.sub_from unescape_pattern (fun g => g) prev 0
                (escape t ++ [backslash]) = t ++ [backslash].
Proof.
  induction t as [|a t IH]; intros prev; [reflexivity|].
  rewrite escape_cons. unfold escaped_char.
  destruct (sep_or_space a) eqn:E.
  - cbn [app Re.sub_from unescape_pattern].
    rewrite Ascii.eqb_refl, E. cbn [andb app Re.sub_from].
    now rewrite IH.
  - cbn [app Re.sub_from]. specialize (IH (Some a)).
    destruct (escape t) as [|c rest] eqn:Et.
    + cbn [app unescape_pattern].
      rewrite sep_or_space_backslash, andb_false_r.
      cbn [app] in IH. now rewrite IH.
    + cbn [app unescape_pattern].
      rewrite (escape_head_plain t c rest Et), andb_false_r.
      cbn [app] in IH. now rewrite IH.
Qed.

Lemma normalize_escape_trailing_space (t : str) (c : ascii) :
  isspace c = true -> normalize (escape (t ++ [c])) = t ++ [backslash].
Proof.
  intros Hc. unfold normalize.
  assert (E : escape (t ++ [c]) = (escape t ++ [backslash]) ++ [c]).
  { rewrite escape_app, <- app_assoc. f_equal.
    rewrite escape_flat_map. cbn [flat_map]. unfold escaped_char.
    rewrite (sep_or_space_isspace c Hc). reflexivity. }
  unfold strip. rewrite lstrip_id by apply starts_space_escape.
  rewrite E, (rstrip_spaces _ [c]) by (cbn; now rewrite Hc).
  rewrite rstrip_last by apply isspace_backslash.
  apply unescape_escape_backslash.
Qed.

(** X7: [normalize] gives back an escaped token exactly when the token does
    not end in white space; a token that does comes back with a backslash in
    place of its last character. *)
Theorem normalize_escape_exactly :
  (forall token, normalize (escape token) = token <-> ends_space token = false)
  /\ (forall token c,
         isspace c = true ->
         normalize (escape (token ++ [c])) = token ++ [backslash]).
Proof.
  split; [|exact normalize_escape_trailing_space].
  intros token. split; [|apply normalize_escape].
  intros H. destruct (ends_space token) eqn:E; [|reflexivity].
  exfalso. rewrite ends_space_last in E.
  destruct token as [|c t] using rev_ind; [discriminate|].
  rewrite last_char_app in E. cbn in E.
  rewrite normalize_escape_trailing_space in H by assumption.
  apply app_inj_tail in H. destruct H as [_ H]. subst c. discriminate E.
Qed.

Lemma normalize_escape_exactly_witness :
  normalize (escape (lit "a b" ++ [TAB])) = lit "a b" ++ [backslash].
Proof.
  apply (proj2 normalize_escape_exactly (lit "a b") TAB). reflexivity.
Defined.

(** X8: the substitution of [normalize] undoes [escape] on every token,
    so [escape] never maps two tokens to the same text; [escape] leaves a
    token unchanged exactly when it holds no [=], [:] or white space, and
    otherwise makes it longer. *)
Theorem escape_is_injective :
  (forall token,
      Re.sub unescape_pattern (fun g => g) (escape token) = token)
  /\ (forall t1 t2, escape t1 = escape t2 -> t1 = t2)
  /\ (forall token,
         escape token = token <-> existsb sep_or_space token = false)
  /\ (forall token, length token <= length (escape token)).
Proof.
  assert (L : forall token, length token <= length (escape token)).
  { induction token as [|c t IH]; [cbn; lia|].
    rewrite escape_cons. unfold escaped_char.
    destruct (sep_or_space c); cbn [app length]; lia. }
  split; [|split; [|split; [|exact L]]].
  - intros token. apply unescape_escape.
  - intros t1 t2 H.
    rewrite <- (unescape_escape t1 None), <- (unescape_escape t2 None).
    now rewrite H.
  - induction token as [|c t IH]; [split; reflexivity|].
    rewrite escape_cons. unfold escaped_char. cbn [existsb].
    destruct (sep_or_space c) eqn:E; cbn [app orb].
    + split; [|discriminate]. intros H.
      assert (G : length (backslash :: c :: escape t) = length (c :: t))
        by now rewrite H.
      cbn [length] in G. specialize (L t). lia.
    + rewrite <- IH. split; intros H; [now injection H | now f_equal].
Qed.

Lemma escape_is_injective_witness :
  escape (lit "a\b#c") = lit "a\b#c".
Proof.
  apply (proj2 (proj1 (proj2 (proj2 escape_is_injective)) (lit "a\b#c"))).
  reflexivity.
Defined.

(** ** White space around the separator *)

Lemma strip_spaces_right (k ws : str) :
  forallb isspace ws = true -> strip (k ++ ws) = strip k.
Proof.
  intros Hws. unfold strip. induction k as [|c t IH].
  - cbn [app]. rewrite <- (app_nil_r ws), lstrip_spaces by assumption.
    reflexivity.
  - cbn [app lstrip]. destruct (isspace c); [exact IH|].
    change (c :: t ++ ws) with ((c :: t) ++ ws).
    now apply rstrip_spaces.
Qed.

Lemma strip_spaces_left (ws v : str) :
  forallb isspace ws = true -> strip (ws ++ v) = strip v.
Proof. intros Hws. unfold strip. now rewrite lstrip_spaces. Qed.

Lemma isspace_not_sep (c : ascii) :
  isspace c = true -> c <> equals /\ c <> colon /\ c <> hash /\ c <> bang.
Proof. repeat split; intros ->; discriminate. Qed.

(** X9: white space on either side of an explicit separator does not count.
    For a key text holding no unescaped separator, not starting with [#] or
    [!] and, with the white space after it, not ending in a backslash, the
    line made of the key text, white space, [=] or [:], white space and the
    value text is read as the normalized key text and the normalized value
    text. *)
Theorem parse_line_ignores_space_around_separator :
  forall k ws1 sep ws2 v,
    sep = equals \/ sep = colon ->
    forallb isspace ws1 = true ->
    forallb isspace ws2 = true ->
    is_comment k = false ->
    (forall q, ~ unescaped_separator k q) ->
    endswith (k ++ ws1) backslash = false ->
    parse_line (k ++ ws1 ++ sep :: ws2 ++ v) = Some (normalize k, normalize v).
Proof.
  intros k ws1 sep ws2 v Hsep H1 H2 Hcom Hk Hend.
  set (line := k ++ ws1 ++ sep :: ws2 ++ v).
  set (p := length (k ++ ws1)).
  assert (Eline : line = (k ++ ws1) ++ sep :: ws2 ++ v)
    by (unfold line; now rewrite app_assoc).
  assert (Hws : forall q c, nth_error ws1 q = Some c -> isspace c = true).
  { intros q c Hq. rewrite forallb_forall in H1. apply H1.
    eapply nth_error_In, Hq. }
  assert (R : is_record line).
  { split; [rewrite Eline; destruct (k ++ ws1); discriminate|].
    unfold is_comment in Hcom. apply orb_false_iff in Hcom.
    destruct Hcom as [Hh Hb]. unfold line.
    destruct k as [|a t]; [|split; assumption].
    cbn [app]. destruct ws1 as [|w ws].
    - cbn [app startswith].
      destruct Hsep as [-> | ->]; split; reflexivity.
    - cbn [app startswith]. cbn [forallb] in H1.
      apply andb_true_iff in H1. destruct H1 as [Hw _].
      destruct (isspace_not_sep w Hw) as (_ & _ & N1 & N2).
      split; now apply eqb_neq_char. }
  assert (U : unescaped_separator line p).
  { split.
    - rewrite Eline. unfold p. rewrite nth_error_app2, Nat.sub_diag by lia.
      cbn. destruct Hsep as [-> | ->]; auto.
    - intros q E. rewrite Eline, nth_error_app1 by (unfold p in E; lia).
      rewrite (nth_error_last_char _ _ E).
      rewrite endswith_last_char in Hend.
      destruct (last_char (k ++ ws1)) as [c|]; [|discriminate].
      apply eqb_neq_char in Hend. congruence. }
  assert (M : forall q, q < p -> ~ unescaped_separator line q).
  { intros q Hq [Hc Hprev]. unfold p in Hq. rewrite length_app in Hq.
    destruct (Nat.lt_ge_cases q (length k)) as [Lt|Ge].
    - apply (Hk q). split.
      + unfold line in Hc. now rewrite nth_error_app1 in Hc.
      + intros r ->. specialize (Hprev r eq_refl).
        unfold line in Hprev. rewrite nth_error_app1 in Hprev by lia.
        exact Hprev.
    - unfold line in Hc. rewrite nth_error_app2 in Hc by lia.
      rewrite nth_error_app1 in Hc by lia.
      destruct Hc as [Hc|Hc]; apply Hws in Hc; discriminate Hc. }
  rewrite (parse_line_at_separator line p R U M).
  rewrite Eline. unfold p.
  rewrite firstn_app, firstn_all, Nat.sub_diag, firstn_O, app_nil_r.
  rewrite skipn_app, skipn_all2 by lia.
  replace (S (length (k ++ ws1)) - length (k ++ ws1)) with 1 by lia.
  cbn [app skipn]. unfold normalize.
  now rewrite strip_spaces_right, strip_spaces_left.
Qed.

Lemma parse_line_ignores_space_around_separator_witness :
  parse_line (lit "a\=b" ++ lit "  " ++ colon :: [TAB; space] ++ lit "c = d") =
    Some (lit "a=b", lit "c = d").
Proof.
  apply (parse_line_ignores_space_around_separator
           (lit "a\=b") (lit "  ") colon [TAB; space] (lit "c = d")).
  - now right.
  - reflexivity.
  - reflexivity.
  - reflexivity.
  - intros q.
    destruct q as [|[|[|[|q]]]]; try no_sep_here.
    + intros [_ H]. apply (H 1 eq_refl). reflexivity.
    + intros [[H|H] _]; destruct q; discriminate H.
  - reflexivity.
Defined.

(** ** A destination that fails *)

Lemma write_first_failure (w : write_method) (items : list (str * str)) :
  forall accepted i kv errno,
    nth_error items i = Some kv ->
    (forall j kvj,
        j < i -> nth_error items j = Some kvj ->
        w (accepted ++ map entry_line (firstn j items)) (entry_line kvj) =
          None) ->
    w (accepted ++ map entry_line (firstn i items)) (entry_line kv) =
      Some errno ->
    write items w accepted =
      (map (fun e => CallWrite (entry_line e)) (firstn (S i) items),
       Some (EnvironmentError errno)).
Proof.
  induction items as [|kv0 rest IH]; intros accepted i kv errno Hi Hok Hfail.
  - destruct i; discriminate.
  - destruct i as [|i].
    + cbn in Hi. injection Hi as ->. cbn [firstn map] in Hfail.
      rewrite app_nil_r in Hfail. cbn [write]. rewrite Hfail. reflexivity.
    + cbn [write].
      assert (H0 : w accepted (entry_line kv0) = None).
      { specialize (Hok 0 kv0). cbn [firstn map] in Hok.
        rewrite app_nil_r in Hok. apply Hok; [lia | reflexivity]. }
      rewrite H0.
      rewrite (IH (accepted ++ [entry_line kv0]) i kv errno).
      * reflexivity.
      * exact Hi.
      * intros j kvj Hj Hn. rewrite <- app_assoc. cbn [app].
        apply (Hok (S j) kvj); [lia | exact Hn].
      * rewrite <- app_assoc. exact Hfail.
Qed.

(** X10: when the stream takes the lines of the first [i] entries and raises
    on the line of the next one, [dump] has called [write] for those
    [i + 1] entries in order and for no later entry, and raises the error of
    the stream unchanged. *)
Theorem dump_stops_at_first_failure :
  forall open props w i kv errno,
    nth_error (items props) i = Some kv ->
    (forall j kvj,
        j < i -> nth_error (items props) j = Some kvj ->
        w (map entry_line (firstn j (items props))) (entry_line kvj) = None) ->
    w (map entry_line (firstn i (items props))) (entry_line kv) = Some errno ->
    dump open props (Stream w) =
      (map (fun e => CallWrite (entry_line e)) (firstn (S i) (items props)),
       Some (EnvironmentError errno)).
Proof.
  intros open props w i kv errno Hi Hok Hfail.
  unfold dump, Stream. cbn [py_write].
  now apply (write_first_failure w (items props) [] i kv errno).
Qed.

Lemma dump_stops_at_first_failure_witness :
  dump no_open [(lit "a", lit "1"); (lit "b", lit "2"); (lit "c", lit "3")]
       (Stream (fun accepted _ => match accepted with
                                  | [] => None
                                  | _ :: _ => Some 28
                                  end)) =
    ([CallWrite (lit "a=1" ++ [LF]); CallWrite (lit "b=2" ++ [LF])],
     Some (EnvironmentError 28)).
Proof.
  apply (dump_stops_at_first_failure no_open
           [(lit "a", lit "1"); (lit "b", lit "2"); (lit "c", lit "3")]
           _ 1 (lit "b", lit "2") 28).
  - reflexivity.
  - intros j kvj Hj _. destruct j; [reflexivity | lia].
  - reflexivity.
Defined.

(** ** Line ends *)

Lemma splitlines_from_crlf (s : str) :
  ~ In CR s ->
  forall cur, splitlines_from cur (to_crlf s) = splitlines_from cur s.
Proof.
  induction s as [|c t IH]; intros H cur; [reflexivity|].
  assert (Ht : ~ In CR t) by (intros I; apply H; now right).
  assert (Hc : Ascii.eqb c CR = false).
  { apply eqb_neq_char. intros ->. apply H. now left. }
  cbn [to_crlf]. destruct (Ascii.eqb c LF) eqn:E.
  - apply eqb_eq_char in E. subst c. cbn [splitlines_from].
    change (Ascii.eqb CR CR) with true. change (Ascii.eqb LF LF) with true.
    change (Ascii.eqb LF CR) with false. change (is_linebreak LF) with true.
    cbn iota. now rewrite IH.
  - cbn [splitlines_from]. rewrite Hc.
    destruct (is_linebreak c); now rewrite IH.
Qed.

(** X12: a text without carriage returns loads to the same map when its
    line feeds are written as carriage return, line feed. *)
Theorem load_accepts_crlf :
  forall text,
    ~ In CR text ->
    splitlines (to_crlf text) = splitlines text /\
    load (PyStr (to_crlf text)) = load (PyStr text).
Proof.
  intros text H.
  assert (E : splitlines (to_crlf text) = splitlines text)
    by now apply splitlines_from_crlf.
  split; [exact E|]. unfold load, PyStr. cbn [py_read py_string].
  now rewrite E.
Qed.

Lemma load_accepts_crlf_witness :
  load (PyStr (to_crlf (lit "a=1\" ++ LF :: lit "2" ++ LF :: lit "b:3"))) =
    Ok [(lit "a", lit "12"); (lit "b", lit "3")].
Proof.
  rewrite (proj2 (load_accepts_crlf
                    (lit "a=1\" ++ LF :: lit "2" ++ LF :: lit "b:3")
                    ltac:(cbn; intuition discriminate))).
  reflexivity.
Defined.

(** ** Sizes *)

Lemma length_lstrip (s : str) : length (lstrip s) <= length s.
Proof.
  induction s as [|c t IH]; [reflexivity|].
  cbn [lstrip]. destruct (isspace c); cbn [length]; lia.
Qed.

Lemma length_strip (s : str) : length (strip s) <= length s.
Proof.
  unfold strip, rstrip. rewrite length_rev.
  pose proof (length_lstrip (rev (lstrip s))) as H1.
  rewrite length_rev in H1. pose proof (length_lstrip s). lia.
Qed.

Lemma length_unescape (s : str) :
  forall prev skip,
    length (Re.sub_from unescape_pattern (fun g => g) prev skip s) <= length s.
Proof.
  induction s as [|c t IH]; intros prev skip; [reflexivity|].
  cbn [Re.sub_from]. destruct skip as [|k].
  - pose proof (IH (Some c) 0) as IH0. pose proof (IH (Some c) 1) as IH1.
    destruct (unescape_pattern prev (c :: t)) as [[n g]|] eqn:E.
    + unfold unescape_pattern in E. destruct t as [|c' t']; [discriminate|].
      destruct (Ascii.eqb c backslash && sep_or_space c'); [|discriminate].
      injection E as <- <-. cbn [app length] in *. lia.
    + cbn [length]. lia.
  - specialize (IH (Some c) k). cbn [length]. lia.
Qed.

Lemma length_normalize (s : str) : length (normalize s) <= length s.
Proof.
  unfold normalize, Re.sub.
  pose proof (length_unescape (strip s) None 0).
  pose proof (length_strip s). lia.
Qed.

(** X13: the key and the value the classifier returns are together never
    longer than the line, and shorter than it when the line is split at an
    explicit separator. *)
Theorem parse_line_sizes :
  forall line key value,
    parse_line line = Some (key, value) ->
    length key + length value <= length line /\
    (Re.search _EXPLICIT_KV_SEP line <> None ->
     length key + length value < length line).
Proof.
  intros line key value. unfold parse_line.
  destruct (truthy line && negb (startswith line hash || startswith line bang));
    [|discriminate].
  pose proof (search_from_spec line None 0) as S. unfold Re.search.
  destruct (Re.search_from _EXPLICIT_KV_SEP None 0 line) as [[a b]|].
  - destruct S as (i & -> & -> & [Hi _] & _). rewrite !Nat.add_0_l.
    intros E. injection E as <- <-.
    change (match line with [] => [] | _ :: l => skipn i l end)
      with (skipn (S i) line).
    pose proof (length_normalize (firstn i line)) as H1.
    pose proof (length_normalize (skipn (S i) line)) as H2.
    rewrite length_firstn in H1. rewrite length_skipn in H2.
    assert (i < length line).
    { apply nth_error_Some. destruct Hi as [Hi|Hi]; rewrite Hi; discriminate. }
    split; [lia | intros _; lia].
  - destruct (find line space) as [p|]; intros E; injection E as <- <-.
    + pose proof (length_normalize (firstn p line)) as H1.
      pose proof (length_normalize (skipn p line)) as H2.
      rewrite length_firstn in H1. rewrite length_skipn in H2.
      split; [lia | congruence].
    + pose proof (length_normalize line). cbn [length].
      split; [lia | congruence].
Qed.

Lemma parse_line_sizes_witness :
  length (lit "a=b") + length (lit "c d") <= length (lit " a\=b : c d ").
Proof.
  apply (parse_line_sizes (lit " a\=b : c d ") (lit "a=b") (lit "c d")).
  reflexivity.
Defined.

(** ** What a loaded map never holds *)

Lemma lstrip_split (s : str) :
  exists ws, s = ws ++ lstrip s /\ forallb isspace ws = true.
Proof.
  induction s as [|c t (ws & E & H)]; [now exists []|].
  cbn [lstrip]. destruct (isspace c) eqn:Ec.
  - exists (c :: ws). cbn [app forallb]. rewrite Ec, H. split; [|reflexivity].
    now f_equal.
  - now exists [].
Qed.

Lemma starts_space_lstrip (s : str) : starts_space (lstrip s) = false.
Proof.
  induction s as [|c t IH]; [reflexivity|].
  cbn [lstrip]. destruct (isspace c) eqn:Ec; [exact IH | exact Ec].
Qed.

Lemma rstrip_split (s : str) :
  exists ws, s = rstrip s ++ ws /\ forallb isspace ws = true.
Proof.
  destruct (lstrip_split (rev s)) as (ws & E & H).
  exists (rev ws). split.
  - unfold rstrip. rewrite <- rev_app_distr, <- E. now rewrite rev_involutive.
  - rewrite forallb_forall in *. intros x Hx. apply H. now apply in_rev.
Qed.

Lemma ends_space_rstrip (s : str) : ends_space (rstrip s) = false.
Proof.
  unfold ends_space, rstrip. rewrite rev_involutive.
  apply starts_space_lstrip.
Qed.

Lemma starts_space_rstrip (s : str) :
  starts_space s = false -> starts_space (rstrip s) = false.
Proof.
  intros H. destruct (rstrip_split s) as (ws & E & _).
  destruct (rstrip s) as [|c t]; [reflexivity|].
  rewrite E in H. exact H.
Qed.

Lemma starts_space_strip (s : str) : starts_space (strip s) = false.
Proof. apply starts_space_rstrip, starts_space_lstrip. Qed.

Lemma ends_space_strip (s : str) : ends_space (strip s) = false.
Proof. apply ends_space_rstrip. Qed.

Lemma starts_space_removelast (s : str) :
  starts_space s = false -> starts_space (removelast s) = false.
Proof.
  destruct s as [|c t]; [reflexivity|].
  cbn [removelast]. destruct t; [reflexivity | exact (fun H => H)].
Qed.

Lemma starts_space_app (a b : str) :
  starts_space a = false -> starts_space b = false ->
  starts_space (a ++ b) = false.
Proof. destruct a; [now intros _ | now intros H _]. Qed.

Lemma coalesce_from_starts (lines : list str) :
  forall buffer,
    starts_space buffer = false ->
    Forall (fun l => starts_space l = false) (coalesce_from buffer lines).
Proof.
  induction lines as [|l rest IH]; intros buffer Hb; [constructor|].
  cbn [coalesce_from]. destruct (endswith (strip l) backslash).
  - apply IH. apply starts_space_app; [exact Hb|].
    apply starts_space_removelast, starts_space_strip.
  - constructor; [|now apply IH].
    destruct buffer as [|c t]; cbn [truthy].
    + apply starts_space_strip.
    + exact Hb.
Qed.

Lemma logical_lines_start_helper (lines : list str) (line : str) :
  In line (coalesce_lines lines) -> starts_space line = false.
Proof.
  intros H.
  pose proof (coalesce_from_starts lines [] eq_refl) as F.
  rewrite Forall_forall in F. now apply F.
Qed.

(** X14: no logical line the coalescer yields starts with white space,
    although a line closing a continuation keeps its leading white space. *)
Theorem logical_lines_start_without_space :
  forall lines line,
    In line (coalesce_lines lines) -> starts_space line = false.
Proof.
  intros lines line H. unfold coalesce_lines in H.
  pose proof (coalesce_from_starts lines [] eq_refl) as F.
  rewrite Forall_forall in F. now apply F.
Qed.

Lemma logical_lines_start_without_space_witness :
  starts_space (lit "k = a  b") = false.
Proof.
  apply (logical_lines_start_without_space
           [lit "  k = a \  "; lit " b  "; lit " # c"]).
  left. reflexivity.
Defined.

Lemma last_char_cons (c : ascii) (s : str) :
  last_char (c :: s) = match last_char s with
                       | Some z => Some z
                       | None => Some c
                       end.
Proof. change (c :: s) with ([c] ++ s). now rewrite last_char_app. Qed.

Lemma last_char_unescape (n : nat) :
  forall s prev,
    length s <= n ->
    last_char (Re.sub_from unescape_pattern (fun g => g) prev 0 s) =
      last_char s.
Proof.
  induction n as [|n IH]; intros s prev Hn.
  - destruct s; [reflexivity | cbn in Hn; lia].
  - destruct s as [|c t]; [reflexivity|].
    cbn [Re.sub_from].
    destruct (unescape_pattern prev (c :: t)) as [[k g]|] eqn:E.
    + unfold unescape_pattern in E. destruct t as [|c' t']; [discriminate|].
      destruct (Ascii.eqb c backslash && sep_or_space c'); [|discriminate].
      injection E as <- <-. cbn [app Re.sub_from].
      rewrite !last_char_cons, IH by (cbn in Hn; lia).
      destruct (last_char t'); reflexivity.
    + rewrite !last_char_cons, IH by (cbn in Hn; lia). reflexivity.
Qed.

Lemma ends_space_normalize (s : str) : ends_space (normalize s) = false.
Proof.
  rewrite ends_space_last. unfold normalize, Re.sub.
  rewrite (last_char_unescape (length (strip s))) by lia.
  rewrite <- ends_space_last. apply ends_space_strip.
Qed.

Lemma startswith_unescape (s : str) (x : ascii) :
  sep_or_space x = false -> startswith s x = false ->
  forall prev,
    startswith (Re.sub_from unescape_pattern (fun g => g) prev 0 s) x = false.
Proof.
  intros Hx Hs prev. destruct s as [|c t]; [reflexivity|].
  cbn [Re.sub_from].
  destruct (unescape_pattern prev (c :: t)) as [[k g]|] eqn:E.
  - unfold unescape_pattern in E. destruct t as [|c' t']; [discriminate|].
    destruct (Ascii.eqb c backslash && sep_or_space c') eqn:B; [|discriminate].
    injection E as <- <-. cbn [app startswith].
    apply andb_true_iff in B. destruct B as [_ B].
    apply eqb_neq_char. intros ->. congruence.
  - exact Hs.
Qed.

Lemma startswith_strip (s : str) (x : ascii) :
  starts_space s = false -> startswith s x = false ->
  startswith (strip s) x = false.
Proof.
  intros Hsp Hs. unfold strip. rewrite lstrip_id by assumption.
  destruct (rstrip_split s) as (ws & E & _).
  destruct (rstrip s) as [|c t]; [reflexivity|].
  rewrite E in Hs. exact Hs.
Qed.

Lemma is_comment_normalize (s : str) :
  starts_space s = false -> is_comment s = false ->
  is_comment (normalize s) = false.
Proof.
  unfold is_comment. intros Hsp H. apply orb_false_iff in H.
  destruct H as [Hh Hb]. unfold normalize, Re.sub.
  rewrite !startswith_unescape; try reflexivity;
    now apply startswith_strip.
Qed.

Lemma firstn_head (n : nat) (s : str) :
  (starts_space s = false -> starts_space (firstn n s) = false) /\
  (is_comment s = false -> is_comment (firstn n s) = false).
Proof.
  destruct n; [now split|]. destruct s; now split.
Qed.

Lemma parse_line_limits (line key value : str) :
  starts_space line = false ->
  parse_line line = Some (key, value) ->
  is_comment key = false /\ ends_space key = false /\
  ends_space value = false.
Proof.
  intros Hsp. unfold parse_line.
  destruct (truthy line) ; [|discriminate]. cbn [andb].
  fold (is_comment line). destruct (is_comment line) eqn:C; [discriminate|].
  cbn [negb].
  destruct (Re.search _EXPLICIT_KV_SEP line) as [[a b]|].
  - intros E. injection E as <- <-.
    split; [|split; apply ends_space_normalize].
    apply is_comment_normalize; now apply firstn_head.
  - destruct (find line space) as [p|]; intros E; injection E as <- <-.
    + split; [|split; apply ends_space_normalize].
      apply is_comment_normalize; now apply firstn_head.
    + split; [now apply is_comment_normalize|].
      split; [apply ends_space_normalize | reflexivity].
Qed.

Lemma Forall_setitem_pairs (K V : str -> Prop) (d : t) (key value : str) :
  Forall (fun kv => K (fst kv) /\ V (snd kv)) d ->
  K key -> V value ->
  Forall (fun kv => K (fst kv) /\ V (snd kv)) (setitem d key value).
Proof.
  intros H Hk Hv. induction H as [|[k v] rest [Hk' Hv'] Hrest IH].
  - repeat constructor; assumption.
  - cbn [setitem]. destruct (str_eq_dec k key).
    + constructor; [split; assumption | exact Hrest].
    + constructor; [split; assumption | exact IH].
Qed.

Lemma fold_parse_step_pairs (K V : str -> Prop) (logical : list str) :
  Forall (fun l => forall k v, parse_line l = Some (k, v) -> K k /\ V v)
         logical ->
  forall d,
    Forall (fun kv => K (fst kv) /\ V (snd kv)) d ->
    Forall (fun kv => K (fst kv) /\ V (snd kv)) (fold_left parse_step logical d).
Proof.
  induction 1 as [|l rest Hl Hrest IH]; intros d Hd; [exact Hd|].
  cbn [fold_left]. apply IH. unfold parse_step.
  destruct (parse_line l) as [[k v]|] eqn:E; [|exact Hd].
  destruct (Hl k v eq_refl). now apply Forall_setitem_pairs.
Qed.

Lemma parse_limits (lines : list str) (key value : str) :
  In (key, value) (_parse lines) ->
  is_comment key = false /\ ends_space key = false /\
  ends_space value = false.
Proof.
  intros Hin.
  assert (F : Forall (fun kv => (is_comment (fst kv) = false /\
                                 ends_space (fst kv) = false) /\
                                ends_space (snd kv) = false)
                     (_parse lines)).
  { unfold _parse.
    apply (fold_parse_step_pairs
             (fun k => is_comment k = false /\ ends_space k = false)
             (fun v => ends_space v = false)); [|constructor].
    apply Forall_forall. intros l Hl k v E.
    apply logical_lines_start_helper in Hl.
    destruct (parse_line_limits l k v Hl E) as (H1 & H2 & H3). auto. }
  rewrite Forall_forall in F. destruct (F _ Hin) as [[H1 H2] H3]. auto.
Qed.

(** X15: a loaded map never holds a key that starts with [#] or [!], nor a
    key or a value that ends in white space. *)
Theorem loaded_map_limits :
  forall text key value,
    In (key, value) (loads text) ->
    startswith key hash = false /\ startswith key bang = false /\
    ends_space key = false /\ ends_space value = false.
Proof.
  intros text key value Hin.
  destruct (parse_limits _ _ _ Hin) as (H1 & H2 & H3).
  unfold is_comment in H1. apply orb_false_iff in H1. tauto.
Qed.

Lemma loaded_map_limits_witness :
  startswith (lit " #k") hash = false /\ startswith (lit " #k") bang = false /\
  ends_space (lit " #k") = false /\ ends_space (lit "v\") = false.
Proof.
  apply (loaded_map_limits (lit "  \ #k  =  v\ \" ++ LF :: lit "  ")).
  left. reflexivity.
Defined.

(** ** Loading what was dumped from a loaded map *)

Lemma existsb_linebreak_false (s : str) :
  Forall (fun c => True /\ is_linebreak c = false) s ->
  existsb is_linebreak s = false.
Proof.
  induction 1 as [|c t [_ Hc] _ IH]; [reflexivity|].
  cbn [existsb]. now rewrite Hc, IH.
Qed.

Lemma loads_no_linebreak (text key value : str) :
  In (key, value) (loads text) ->
  existsb is_linebreak key = false /\ existsb is_linebreak value = false.
Proof.
  intros Hin.
  set (Q := fun c : ascii => True /\ is_linebreak c = false).
  assert (M : Forall (fun kv => Forall Q (fst kv) /\ Forall Q (snd kv))
                     (loads text)).
  { unfold loads, _parse. apply Forall_parse_steps; [|constructor].
    apply Forall_coalesce; [|constructor].
    apply (splitlines_from_chars (fun _ => True)); [|constructor].
    apply Forall_forall. auto. }
  rewrite Forall_forall in M. destruct (M _ Hin) as [Hk Hv].
  split; now apply existsb_linebreak_false.
Qed.

Lemma loads_nodup (text : str) : NoDup (keys (loads text)).
Proof.
  unfold loads, _parse. rewrite fold_parse_step.
  apply fold_put_nodup. constructor.
Qed.

(** X16: a loaded map in which no key and no value ends in a backslash is a
    fixed point of dumping and loading again: the text [dump] writes for it
    loads to the same map, with the same order of keys. *)
Theorem load_dump_load_is_stable :
  forall text,
    (forall key value,
        In (key, value) (loads text) ->
        endswith key backslash = false /\ endswith value backslash = false) ->
    load (PyStr (dump_to_string (loads text))) = Ok (loads text).
Proof.
  intros text H. unfold load, PyStr. cbn [py_read py_string].
  fold (loads (dump_to_string (loads text))).
  rewrite loads_dump_to_string; [reflexivity | apply loads_nodup |].
  intros [k v] Hin.
  destruct (parse_limits _ _ _ Hin) as (C & Sk & Sv).
  destruct (loads_no_linebreak _ _ _ Hin) as [Lk Lv].
  destruct (H k v Hin) as [Bk Bv].
  unfold is_comment in C. apply orb_false_iff in C. destruct C as [Ch Cb].
  unfold entry_ok, dumpable. cbn [fst snd].
  rewrite Lk, Lv, Sk, Sv, Bk, Bv. repeat split; assumption.
Qed.

Lemma load_dump_load_is_stable_witness :
  load (PyStr (dump_to_string
                 (loads (lit "a\ b : c = d \" ++ LF :: lit "  e" ++ LF ::
                         lit "# skip" ++ LF :: lit "k\=1   v w")))) =
    Ok [(lit "a b", lit "c = d   e"); (lit "k=1", lit "v w")].
Proof.
  rewrite load_dump_load_is_stable; [reflexivity|].
  intros key value [H|[H|[]]]; injection H as <- <-; split; reflexivity.
Defined.

Example load_dump_load_unstable :
  loads (lit "a=b\ \" ++ LF :: lit " ") = [(lit "a", lit "b\")] /\
  loads (dump_to_string (loads (lit "a=b\ \" ++ LF :: lit " "))) = [].
Proof. split; reflexivity. Qed.

(** ** White space at the ends of physical lines *)

Lemma strip_rstrip (l : str) : strip (rstrip l) = strip l.
Proof.
  destruct (rstrip_split l) as (ws & E & H).
  rewrite E at 2. now rewrite strip_spaces_right.
Qed.

Lemma rstrip_rstrip (l : str) : rstrip (rstrip l) = rstrip l.
Proof.
  destruct (rstrip_split l) as (ws & E & H).
  rewrite E at 2. now rewrite rstrip_spaces.
Qed.

Lemma coalesce_from_rstrip (lines : list str) :
  forall buffer,
    coalesce_from buffer (map rstrip lines) = coalesce_from buffer lines.
Proof.
  induction lines as [|l rest IH]; intros buffer; [reflexivity|].
  cbn [map coalesce_from]. rewrite strip_rstrip, rstrip_rstrip, !IH.
  reflexivity.
Qed.

(** X17: white space at the end of a physical line never matters, not even
    after a closing backslash: removing it from every line leaves the
    logical lines and the loaded map unchanged. *)
Theorem trailing_space_is_ignored :
  forall lines,
    coalesce_lines (map rstrip lines) = coalesce_lines lines /\
    _parse (map rstrip lines) = _parse lines.
Proof.
  intros lines.
  assert (E : coalesce_lines (map rstrip lines) = coalesce_lines lines)
    by apply coalesce_from_rstrip.
  split; [exact E|]. unfold _parse. now rewrite E.
Qed.

(** X18: when no physical line is continued, the logical lines are the
    physical lines stripped on both sides, one for one. *)
Theorem coalesce_without_continuation :
  forall lines,
    Forall (fun l => is_continuation l = false) lines ->
    coalesce_lines lines = map strip lines.
Proof.
  intros lines H. unfold coalesce_lines.
  induction H as [|l rest Hl _ IH]; [reflexivity|].
  rewrite coalesce_from_final by assumption. cbn [truthy map].
  now rewrite IH.
Qed.

Lemma coalesce_without_continuation_witness :
  coalesce_lines [lit "  a = 1 "; []; lit "# c  "] =
    [lit "a = 1"; []; lit "# c"].
Proof.
  apply (coalesce_without_continuation [lit "  a = 1 "; []; lit "# c  "]).
  repeat constructor.
Defined.
